(** * BlockLink reward protocol: a shallow embedding of the Solidity contracts

    The development follows [BlockLink_SmartContract.sol]:
    - [Token] embeds [BlockLinkToken] (an ERC-20 ledger with an owner);
    - the rest embeds [BlockLinkRewardProtocol], the matching registry.

    Solidity values are modelled as the code has them: [uint256] and
    [address] are binary naturals ([N]); arithmetic is the checked
    arithmetic of Solidity 0.8 (an overflow aborts the call with
    [Panic 0x11]); a [mapping] is a finite map whose missing keys read as the
    zero value of the value type; a failing [require] reverts the whole
    transaction with its reason string. *)

From Stdlib Require Import NArith Lia.
From stdpp Require Import gmap strings list.

Open Scope string_scope.
Open Scope N_scope.

(** ** Machine integers and addresses *)

Abbreviation address := N (only parsing).
Abbreviation uint256 := N (only parsing).

Definition MAX_UINT256 : N := 2 ^ 256 - 1.
Definition MAX_ADDRESS : N := 2 ^ 160 - 1.

(** [address(0)] *)
Definition address0 : N := 0.

(** ** Outcome of a call and the transaction monad *)

Inductive Result (A : Type) : Type :=
| Ok (a : A)
| Revert (reason : string)
| Panic (code : N).
Arguments Ok {A} a.
Arguments Revert {A} reason.
Arguments Panic {A} code.

(** A computation over a state [S]: it either returns a value with the new
    state or aborts; an abort carries no state, the caller decides what is
    kept (see [transact]). *)
Definition M (S A : Type) : Type := S → Result (A * S).

Definition ret {S A} (a : A) : M S A := λ s, Ok (a, s).

Definition bind {S A B} (c : M S A) (k : A → M S B) : M S B :=
  λ s, match c s with
       | Ok (a, s') => k a s'
       | Revert r => Revert r
       | Panic c => Panic c
       end.

#[global] Instance M_bind {S} : MBind (M S) := λ A B k c, bind c k.

Definition get {S} : M S S := λ s, Ok (s, s).
Definition gets {S A} (f : S → A) : M S A := λ s, Ok (f s, s).
Definition modify {S} (f : S → S) : M S unit := λ s, Ok (tt, f s).
Definition revert {S A} (reason : string) : M S A := λ _, Revert reason.
Definition panic {S A} (code : N) : M S A := λ _, Panic code.

(** [require(cond, reason)] *)
Definition require {S} (cond : bool) (reason : string) : M S unit :=
  if cond then ret tt else revert reason.

(** Checked arithmetic of Solidity 0.8: [Panic(0x11)] on overflow. *)
Definition ARITHMETIC_PANIC : N := 17.

Definition checked_add {S} (x y : N) : M S N :=
  if x + y <=? MAX_UINT256 then ret (x + y) else panic ARITHMETIC_PANIC.

Definition checked_mul {S} (x y : N) : M S N :=
  if x * y <=? MAX_UINT256 then ret (x * y) else panic ARITHMETIC_PANIC.

(** A top-level transaction is atomic: when the call aborts, the state is
    the one from before the call. *)
Definition transact {S A} (c : M S A) (s : S) : S * Result A :=
  match c s with
  | Ok (a, s') => (s', Ok a)
  | Revert r => (s, Revert r)
  | Panic c => (s, Panic c)
  end.

(** The part of the EVM call context the contracts read. *)
Record Env := { msg_sender : N; block_timestamp : N }.

(** ** The reward ledger: [BlockLinkToken is ERC20, Ownable] *)

Module Token.

Inductive Event :=
| Transfer (from to value : N)
| Approval (owner spender value : N).

Record State := mkState {
  balances : gmap N N;
  allowances : gmap (N * N) N;
  totalSupply : N;
  owner : N;
  events : list Event
}.

Definition set_balances (f : gmap N N → gmap N N) (t : State) : State :=
  mkState (f (balances t)) (allowances t) (totalSupply t) (owner t) (events t).
Definition set_allowances (f : gmap (N * N) N → gmap (N * N) N) (t : State) : State :=
  mkState (balances t) (f (allowances t)) (totalSupply t) (owner t) (events t).
Definition set_totalSupply (n : N) (t : State) : State :=
  mkState (balances t) (allowances t) n (owner t) (events t).
Definition set_owner (a : N) (t : State) : State :=
  mkState (balances t) (allowances t) (totalSupply t) a (events t).
Definition emit (e : Event) : M State unit :=
  modify (λ t, mkState (balances t) (allowances t) (totalSupply t) (owner t)
                       (events t ++ [e])).

Definition decimals : N := 18.

(** [balanceOf(account)]: a missing key reads as 0. *)
Definition balance (t : State) (account : N) : N :=
  default 0 (balances t !! account).

Definition allowance (t : State) (owner spender : N) : N :=
  default 0 (allowances t !! (owner, spender)).

Definition balanceOf (account : N) : M State N := gets (λ t, balance t account).

(** Modelled from the spec: the ERC-20 base contract is imported from
    OpenZeppelin and is not among the sources. Section 4.1: transfer
    "decreases caller's balance, increases [to]'s balance; fails if caller
    balance < amount or [to] is a null identity"; additions are protected
    against overflow. The sender's balance is written before the
    receiver's is read, so a transfer to oneself leaves the balance as it
    was. *)
Definition _transfer (from to amount : N) : M State unit :=
  require (negb (from =? address0)) "ERC20: transfer from the zero address";;
  require (negb (to =? address0)) "ERC20: transfer to the zero address";;
  fromBalance ← gets (λ t, balance t from);
  require (amount <=? fromBalance) "ERC20: transfer amount exceeds balance";;
  modify (set_balances <[from := fromBalance - amount]>);;
  toBalance ← gets (λ t, balance t to);
  toBalance' ← checked_add toBalance amount;
  modify (set_balances <[to := toBalance']>);;
  emit (Transfer from to amount).

Definition transfer (env : Env) (to amount : N) : M State bool :=
  _transfer (msg_sender env) to amount;;
  ret true.

(** Modelled from the spec: [approve] and [transferFrom] of the imported
    ERC-20 base contract. Section 4.2 has [fundRewards] "move tokens between
    the caller and the registry's own holdings via the ledger's transfer
    operation"; the code calls [transferFrom], which in an ERC-20 ledger
    first spends the caller's allowance: the spender needs an allowance of
    at least [amount], and an allowance of [MAX_UINT256] is not consumed. *)
Definition _approve (owner spender amount : N) : M State unit :=
  require (negb (owner =? address0)) "ERC20: approve from the zero address";;
  require (negb (spender =? address0)) "ERC20: approve to the zero address";;
  modify (set_allowances <[(owner, spender) := amount]>);;
  emit (Approval owner spender amount).

Definition approve (env : Env) (spender amount : N) : M State bool :=
  _approve (msg_sender env) spender amount;;
  ret true.

Definition _spendAllowance (owner spender amount : N) : M State unit :=
  currentAllowance ← gets (λ t, allowance t owner spender);
  if currentAllowance =? MAX_UINT256 then ret tt
  else
    require (amount <=? currentAllowance) "ERC20: insufficient allowance";;
    _approve owner spender (currentAllowance - amount).

Definition transferFrom (env : Env) (from to amount : N) : M State bool :=
  _spendAllowance from (msg_sender env) amount;;
  _transfer from to amount;;
  ret true.

(** Modelled from the spec: [_mint] and [_burn] of the imported ERC-20 base
    contract. Section 4.1: mint "increases [to]'s balance and total supply
    by [amount]"; burn "decreases their own balance by [amount]; fails if
    balance insufficient". *)
Definition _mint (account amount : N) : M State unit :=
  require (negb (account =? address0)) "ERC20: mint to the zero address";;
  supply ← gets totalSupply;
  supply' ← checked_add supply amount;
  modify (set_totalSupply supply');;
  bal ← gets (λ t, balance t account);
  bal' ← checked_add bal amount;
  modify (set_balances <[account := bal']>);;
  emit (Transfer address0 account amount).

Definition _burn (account amount : N) : M State unit :=
  require (negb (account =? address0)) "ERC20: burn from the zero address";;
  accountBalance ← gets (λ t, balance t account);
  require (amount <=? accountBalance) "ERC20: burn amount exceeds balance";;
  modify (set_balances <[account := accountBalance - amount]>);;
  supply ← gets totalSupply;
  modify (set_totalSupply (supply - amount));;
  emit (Transfer account address0 amount).

(** [modifier onlyOwner] of the imported [Ownable]. *)
Definition onlyOwner (env : Env) : M State unit :=
  o ← gets owner;
  require (o =? msg_sender env) "Ownable: caller is not the owner".

(** [function mint(address to, uint256 amount) public onlyOwner] *)
Definition mint (env : Env) (to amount : N) : M State unit :=
  onlyOwner env;;
  _mint to amount.

(** [function burn(uint256 amount) public] *)
Definition burn (env : Env) (amount : N) : M State unit :=
  _burn (msg_sender env) amount.

(** The state before the constructor runs. *)
Definition empty : State := mkState ∅ ∅ 0 address0 [].

(** [constructor(uint256 initialSupply)]: [Ownable] makes the deployer the
    owner, then [_mint(msg.sender, initialSupply * 10 ** decimals())]. *)
Definition constructor (env : Env) (initialSupply : N) : M State unit :=
  modify (set_owner (msg_sender env));;
  amount ← checked_mul initialSupply (10 ^ decimals);
  _mint (msg_sender env) amount.

End Token.

(** ** The matching registry: [BlockLinkRewardProtocol] *)

(** [enum Role { NONE, MATCHMAKER, VERIFIER, ADMIN }] *)
Inductive Role := NONE | MATCHMAKER | VERIFIER | ADMIN.

#[global] Instance Role_eq_dec : EqDecision Role.
Proof. solve_decision. Defined.

Module User.
(** [struct User] *)
Record t := mk {
  userAddress : N;
  role : Role;
  totalRewardsEarned : N;
  successfulMatches : N;
  isActive : bool
}.

(** The value a [mapping] yields for a key never written. *)
Definition zero : t := mk address0 NONE 0 0 false.

Definition set_role (r : Role) (u : t) : t :=
  mk (userAddress u) r (totalRewardsEarned u) (successfulMatches u) (isActive u).
Definition set_totalRewardsEarned (n : N) (u : t) : t :=
  mk (userAddress u) (role u) n (successfulMatches u) (isActive u).
Definition set_successfulMatches (n : N) (u : t) : t :=
  mk (userAddress u) (role u) (totalRewardsEarned u) n (isActive u).
End User.

Module Match.
(** [struct Match] *)
Record t := mk {
  matchId : N;
  matchmaker : N;
  peer1 : N;
  peer2 : N;
  rewardAmount : N;
  isVerified : bool;
  createdAt : N;
  completedAt : N
}.

Definition zero : t := mk 0 address0 address0 address0 0 false 0 0.

Definition set_isVerified (b : bool) (m : t) : t :=
  mk (matchId m) (matchmaker m) (peer1 m) (peer2 m) (rewardAmount m) b
     (createdAt m) (completedAt m).
Definition set_completedAt (n : N) (m : t) : t :=
  mk (matchId m) (matchmaker m) (peer1 m) (peer2 m) (rewardAmount m)
     (isVerified m) (createdAt m) n.
End Match.

Inductive Event :=
| UserRegistered (user : N) (role : Role)
| MatchCreated (matchId matchmaker peer1 peer2 : N)
| MatchVerified (matchId verifier : N)
| RewardDistributed (matchId matchmaker amount : N)
| RoleAssigned (user : N) (role : Role)
| OwnershipTransferred (previousOwner newOwner : N).

(** The storage of the registry. [verifiers] is a
    [mapping(address => bool)] in which the code only ever writes [true]:
    it is kept as the set of the addresses mapped to [true]. [entered] is
    the flag of the imported [ReentrancyGuard]. *)
Record State := mkState {
  rewardToken : N;
  owner : N;
  entered : bool;
  users : gmap N User.t;
  matches : gmap N Match.t;
  verifiers : gset N;
  matchCounter : N;
  totalMatches : N;
  successfulMatches : N;
  events : list Event
}.

(** [uint256 public constant REWARD_AMOUNT = 100 * 10 ** 18] *)
Definition REWARD_AMOUNT : N := 100 * 10 ^ 18.

Definition set_owner (a : N) (s : State) : State :=
  mkState (rewardToken s) a (entered s) (users s) (matches s) (verifiers s)
          (matchCounter s) (totalMatches s) (successfulMatches s) (events s).
Definition set_entered (b : bool) (s : State) : State :=
  mkState (rewardToken s) (owner s) b (users s) (matches s) (verifiers s)
          (matchCounter s) (totalMatches s) (successfulMatches s) (events s).
Definition set_users (f : gmap N User.t → gmap N User.t) (s : State) : State :=
  mkState (rewardToken s) (owner s) (entered s) (f (users s)) (matches s)
          (verifiers s) (matchCounter s) (totalMatches s) (successfulMatches s)
          (events s).
Definition set_matches (f : gmap N Match.t → gmap N Match.t) (s : State) : State :=
  mkState (rewardToken s) (owner s) (entered s) (users s) (f (matches s))
          (verifiers s) (matchCounter s) (totalMatches s) (successfulMatches s)
          (events s).
Definition set_verifiers (f : gset N → gset N) (s : State) : State :=
  mkState (rewardToken s) (owner s) (entered s) (users s) (matches s)
          (f (verifiers s)) (matchCounter s) (totalMatches s)
          (successfulMatches s) (events s).
Definition set_matchCounter (n : N) (s : State) : State :=
  mkState (rewardToken s) (owner s) (entered s) (users s) (matches s)
          (verifiers s) n (totalMatches s) (successfulMatches s) (events s).
Definition set_totalMatches (n : N) (s : State) : State :=
  mkState (rewardToken s) (owner s) (entered s) (users s) (matches s)
          (verifiers s) (matchCounter s) n (successfulMatches s) (events s).
Definition set_successfulMatches (n : N) (s : State) : State :=
  mkState (rewardToken s) (owner s) (entered s) (users s) (matches s)
          (verifiers s) (matchCounter s) (totalMatches s) n (events s).
Definition add_event (e : Event) (s : State) : State :=
  mkState (rewardToken s) (owner s) (entered s) (users s) (matches s)
          (verifiers s) (matchCounter s) (totalMatches s) (successfulMatches s)
          (events s ++ [e]).

(** [users[a]] and [matches[i]]: a key never written reads as the zero
    record. *)
Definition user_at (us : gmap N User.t) (a : N) : User.t :=
  default User.zero (us !! a).
Definition match_at (ms : gmap N Match.t) (i : N) : Match.t :=
  default Match.zero (ms !! i).

(** [users[a].field = ...] and [matches[i].field = ...]: a write through a
    storage reference changes one field of the stored record. *)
Definition update_user (a : N) (f : User.t → User.t) (s : State) : State :=
  set_users (λ us, <[a := f (user_at us a)]> us) s.
Definition update_match (i : N) (f : Match.t → Match.t) (s : State) : State :=
  set_matches (λ ms, <[i := f (match_at ms i)]> ms) s.

(** ** The two contracts together

    The registry lives at address [this]; the ledger it was given at
    construction is [token]. *)
Record World := mkWorld {
  this : N;
  registry : State;
  token : Token.State
}.

Definition read {A} (f : State → A) : M World A := gets (λ w, f (registry w)).

Definition update (f : State → State) : M World unit :=
  modify (λ w, mkWorld (this w) (f (registry w)) (token w)).

Definition emit (e : Event) : M World unit := update (add_event e).

(** An external call of the registry into the ledger: the ledger sees the
    registry as [msg.sender]; an abort of the callee aborts the caller. *)
Definition call_token {A} (env : Env) (c : Env → M Token.State A) : M World A :=
  λ w, match c {| msg_sender := this w; block_timestamp := block_timestamp env |}
               (token w) with
       | Ok (a, t') => Ok (a, mkWorld (this w) (registry w) t')
       | Revert r => Revert r
       | Panic c => Panic c
       end.

(** [modifier nonReentrant] of the imported [ReentrancyGuard] *)
Definition nonReentrant {A} (body : M World A) : M World A :=
  e ← read entered;
  require (negb e) "ReentrancyGuard: reentrant call";;
  update (set_entered true);;
  r ← body;
  update (set_entered false);;
  ret r.

(** [modifier onlyOwner] of the imported [Ownable] *)
Definition onlyOwner (env : Env) : M World unit :=
  o ← read owner;
  require (o =? msg_sender env) "Ownable: caller is not the owner".

(** [constructor(address _tokenAddress)] *)
Definition constructor (env : Env) (_tokenAddress : N) : State :=
  mkState _tokenAddress (msg_sender env) false ∅ ∅ {[msg_sender env]} 0 0 0
          [OwnershipTransferred address0 (msg_sender env)].

(** *** User management *)

Definition registerUser (env : Env) (_role : Role) : M World unit :=
  require (bool_decide (_role ≠ NONE)) "Invalid role";;
  u ← read (λ s, user_at (users s) (msg_sender env));
  require (negb (User.isActive u)) "User already registered";;
  update (set_users <[msg_sender env :=
            User.mk (msg_sender env) _role 0 0 true]>);;
  (if bool_decide (_role = VERIFIER)
   then update (set_verifiers (λ v, {[msg_sender env]} ∪ v))
   else ret tt);;
  emit (UserRegistered (msg_sender env) _role).

Definition assignRole (env : Env) (_user : N) (_role : Role) : M World unit :=
  onlyOwner env;;
  u ← read (λ s, user_at (users s) _user);
  require (User.isActive u) "User not registered";;
  require (bool_decide (_role ≠ NONE)) "Invalid role";;
  update (update_user _user (User.set_role _role));;
  (if bool_decide (_role = VERIFIER)
   then update (set_verifiers (λ v, {[_user]} ∪ v))
   else ret tt);;
  emit (RoleAssigned _user _role).

(** *** Match management *)

Definition createMatch (env : Env) (_peer1 _peer2 : N) : M World N :=
  nonReentrant (
    u ← read (λ s, user_at (users s) (msg_sender env));
    require (User.isActive u) "Matchmaker not registered";;
    require (bool_decide (User.role u = MATCHMAKER))
            "Only matchmakers can create matches";;
    require (negb (_peer1 =? address0) && negb (_peer2 =? address0))
            "Invalid peer addresses";;
    require (negb (_peer1 =? _peer2)) "Peers must be different";;
    matchId ← read matchCounter;
    counter' ← checked_add matchId 1;
    update (set_matchCounter counter');;
    total ← read totalMatches;
    total' ← checked_add total 1;
    update (set_totalMatches total');;
    update (set_matches <[matchId :=
              Match.mk matchId (msg_sender env) _peer1 _peer2 REWARD_AMOUNT
                       false (block_timestamp env) 0]>);;
    emit (MatchCreated matchId (msg_sender env) _peer1 _peer2);;
    ret matchId).

Definition _distributeReward (env : Env) (_matchId : N) : M World unit :=
  matchData ← read (λ s, match_at (matches s) _matchId);
  let matchmaker := Match.matchmaker matchData in
  let rewardAmount := Match.rewardAmount matchData in
  self ← gets this;
  bal ← call_token env (λ _, Token.balanceOf self);
  require (rewardAmount <=? bal) "Insufficient reward token balance";;
  u ← read (λ s, user_at (users s) matchmaker);
  rewards' ← checked_add (User.totalRewardsEarned u) rewardAmount;
  update (update_user matchmaker (User.set_totalRewardsEarned rewards'));;
  u ← read (λ s, user_at (users s) matchmaker);
  count' ← checked_add (User.successfulMatches u) 1;
  update (update_user matchmaker (User.set_successfulMatches count'));;
  call_token env (λ e, Token.transfer e matchmaker rewardAmount);;
  emit (RewardDistributed _matchId matchmaker rewardAmount).

(** The statements of [verifyMatch] up to the call of [_distributeReward]:
    the checks, then the writes. *)
Definition verifyMatch_mark (env : Env) (_matchId : N) : M World unit :=
  v ← read verifiers;
  require (bool_decide (msg_sender env ∈ v)) "Only verifiers can verify matches";;
  counter ← read matchCounter;
  require (_matchId <? counter) "Invalid match ID";;
  matchData ← read (λ s, match_at (matches s) _matchId);
  require (negb (Match.isVerified matchData)) "Match already verified";;
  require (negb (Match.createdAt matchData =? 0)) "Match does not exist";;
  update (update_match _matchId (Match.set_isVerified true));;
  update (update_match _matchId (Match.set_completedAt (block_timestamp env)));;
  n ← read successfulMatches;
  n' ← checked_add n 1;
  update (set_successfulMatches n');;
  emit (MatchVerified _matchId (msg_sender env)).

Definition verifyMatch (env : Env) (_matchId : N) : M World unit :=
  nonReentrant (
    verifyMatch_mark env _matchId;;
    _distributeReward env _matchId).

(** *** Getter functions *)

Definition getUserInfo (_user : N) : M World User.t :=
  read (λ s, user_at (users s) _user).

Definition getMatchInfo (_matchId : N) : M World Match.t :=
  counter ← read matchCounter;
  require (_matchId <? counter) "Invalid match ID";;
  read (λ s, match_at (matches s) _matchId).

Definition getMatchmakerStats (_matchmaker : N) : M World (N * N * bool) :=
  u ← read (λ s, user_at (users s) _matchmaker);
  ret (User.totalRewardsEarned u, User.successfulMatches u, User.isActive u).

(** [totalMatches > 0 ? (successfulMatches * 100) / totalMatches : 0]: the
    product is checked; the division is only evaluated with a non-zero
    divisor. *)
Definition getProtocolStats : M World (N * N * N) :=
  total ← read totalMatches;
  rate ← (if 0 <? total
          then successful ← read successfulMatches;
               product ← checked_mul successful 100;
               total ← read totalMatches;
               ret (product / total)
          else ret 0);
  total ← read totalMatches;
  successful ← read successfulMatches;
  ret (total, successful, rate).

(** *** Admin functions *)

Definition fundRewards (env : Env) (_amount : N) : M World unit :=
  onlyOwner env;;
  require (0 <? _amount) "Invalid amount";;
  self ← gets this;
  call_token env (λ e, Token.transferFrom e (msg_sender env) self _amount);;
  ret tt.

Definition withdrawTokens (env : Env) (_amount : N) : M World unit :=
  onlyOwner env;;
  require (0 <? _amount) "Invalid amount";;
  self ← gets this;
  bal ← call_token env (λ _, Token.balanceOf self);
  require (_amount <=? bal) "Insufficient balance";;
  call_token env (λ e, Token.transfer e (msg_sender env) _amount);;
  ret tt.

Definition getContractBalance (env : Env) : M World N :=
  self ← gets this;
  call_token env (λ _, Token.balanceOf self).

(** The two state-changing functions the registry inherits from the imported
    [Ownable]. *)
Definition transferOwnership (env : Env) (newOwner : N) : M World unit :=
  onlyOwner env;;
  require (negb (newOwner =? address0)) "Ownable: new owner is the zero address";;
  o ← read owner;
  update (set_owner newOwner);;
  emit (OwnershipTransferred o newOwner).

Definition renounceOwnership (env : Env) : M World unit :=
  onlyOwner env;;
  o ← read owner;
  update (set_owner address0);;
  emit (OwnershipTransferred o address0).

(** The reasons of section 7, as the strings the code reverts with. *)
Definition InvalidRole : string := "Invalid role".
Definition AlreadyRegistered : string := "User already registered".
Definition NotRegistered : string := "User not registered".
Definition UnknownMatch : string := "Invalid match ID".
Definition AlreadyVerified : string := "Match already verified".
Definition InsufficientBalance : string := "Insufficient reward token balance".
Definition NotVerifier : string := "Only verifiers can verify matches".

(** ** Transactions and reachable states *)

(** The two state-changing functions the ledger inherits from the imported
    [Ownable]. *)
Definition transferOwnership_token (env : Env) (newOwner : N)
    : M Token.State unit :=
  Token.onlyOwner env;;
  require (negb (newOwner =? address0)) "Ownable: new owner is the zero address";;
  modify (Token.set_owner newOwner).

Definition renounceOwnership_token (env : Env) : M Token.State unit :=
  Token.onlyOwner env;;
  modify (Token.set_owner address0).

(** The state-changing entry points of the two contracts. *)
Inductive Call :=
| RegisterUser (_role : Role)
| AssignRole (_user : N) (_role : Role)
| CreateMatch (_peer1 _peer2 : N)
| VerifyMatch (_matchId : N)
| FundRewards (_amount : N)
| WithdrawTokens (_amount : N)
| TransferOwnership (newOwner : N)
| RenounceOwnership
| TokenTransfer (to amount : N)
| TokenApprove (spender amount : N)
| TokenTransferFrom (from to amount : N)
| TokenMint (to amount : N)
| TokenBurn (amount : N)
| TokenTransferOwnership (newOwner : N)
| TokenRenounceOwnership.

(** A call made to the ledger from outside the registry. *)
Definition on_token {A} (c : M Token.State A) : M World unit :=
  λ w, match c (token w) with
       | Ok (_, t') => Ok (tt, mkWorld (this w) (registry w) t')
       | Revert r => Revert r
       | Panic c => Panic c
       end.

Definition exec (env : Env) (c : Call) : M World unit :=
  match c with
  | RegisterUser r => registerUser env r
  | AssignRole u r => assignRole env u r
  | CreateMatch p1 p2 => createMatch env p1 p2;; ret tt
  | VerifyMatch i => verifyMatch env i
  | FundRewards a => fundRewards env a
  | WithdrawTokens a => withdrawTokens env a
  | TransferOwnership a => transferOwnership env a
  | RenounceOwnership => renounceOwnership env
  | TokenTransfer to a => on_token (Token.transfer env to a)
  | TokenApprove sp a => on_token (Token.approve env sp a)
  | TokenTransferFrom from to a => on_token (Token.transferFrom env from to a)
  | TokenMint to a => on_token (Token.mint env to a)
  | TokenBurn a => on_token (Token.burn env a)
  | TokenTransferOwnership a => on_token (transferOwnership_token env a)
  | TokenRenounceOwnership => on_token (renounceOwnership_token env)
  end.

(** What the EVM guarantees of the context of a transaction sent to one of
    the contracts: the sender is a 160-bit address, not the zero address and
    not the registry (which has no code calling its own entry points), and
    the block timestamp is a positive [uint256]. *)
Definition valid_env (self : N) (env : Env) : Prop :=
  msg_sender env ≠ address0 ∧ msg_sender env ≠ self ∧
  msg_sender env <= MAX_ADDRESS ∧
  block_timestamp env ≠ 0 ∧ block_timestamp env <= MAX_UINT256.

(** The arguments of a call fit their ABI types. *)
Definition valid_call (c : Call) : Prop :=
  match c with
  | RegisterUser _ | RenounceOwnership | TokenRenounceOwnership => True
  | AssignRole a _ | TransferOwnership a | TokenTransferOwnership a =>
      a <= MAX_ADDRESS
  | CreateMatch a b => a <= MAX_ADDRESS ∧ b <= MAX_ADDRESS
  | VerifyMatch n | FundRewards n | WithdrawTokens n | TokenBurn n =>
      n <= MAX_UINT256
  | TokenTransfer a n | TokenApprove a n | TokenMint a n =>
      a <= MAX_ADDRESS ∧ n <= MAX_UINT256
  | TokenTransferFrom a b n =>
      a <= MAX_ADDRESS ∧ b <= MAX_ADDRESS ∧ n <= MAX_UINT256
  end.

(** The registry right after its deployment at address [self], by
    [msg_sender env], over a ledger in any state. *)
Definition deployed (self : N) (env : Env) (_tokenAddress : N)
    (t : Token.State) : World :=
  mkWorld self (constructor env _tokenAddress) t.

Definition initial (w : World) : Prop :=
  ∃ self env _tokenAddress t,
    valid_env self env ∧ w = deployed self env _tokenAddress t.

(** [steps w0 tr w]: the successful transactions [tr] (the newest first) lead
    from [w0] to [w]. A failed transaction leaves the state as it was
    ([transact]) and is not recorded. *)
Inductive steps (w0 : World) : list (Env * Call) → World → Prop :=
| steps_nil : steps w0 [] w0
| steps_cons tr w env c w' :
    steps w0 tr w →
    valid_env (this w) env →
    valid_call c →
    exec env c w = Ok (tt, w') →
    steps w0 ((env, c) :: tr) w'.

Definition reachable (w : World) : Prop :=
  ∃ w0 tr, initial w0 ∧ steps w0 tr w.

(** * What a successful call does

    For each state-changing function: the condition under which it returns,
    and the state it returns in, written out field by field. The lemmas
    [registerUser_Ok], [createMatch_Ok], ... below prove them equivalent to
    the code. *)

Definition debit (from amount : N) (bs : gmap N N) : gmap N N :=
  <[from := default 0 (bs !! from) - amount]> bs.

Definition credit (to amount : N) (bs : gmap N N) : gmap N N :=
  <[to := default 0 (bs !! to) + amount]> bs.

Definition transfer_pre (from to amount : N) (t : Token.State) : Prop :=
  from ≠ address0 ∧ to ≠ address0 ∧
  amount <= Token.balance t from ∧
  default 0 (debit from amount (Token.balances t) !! to) + amount <= MAX_UINT256.

Definition transfer_post (from to amount : N) (t : Token.State) : Token.State :=
  Token.mkState (credit to amount (debit from amount (Token.balances t)))
    (Token.allowances t) (Token.totalSupply t) (Token.owner t)
    (Token.events t ++ [Token.Transfer from to amount]).

Definition registerUser_pre (env : Env) (_role : Role) (w : World) : Prop :=
  _role ≠ NONE ∧
  User.isActive (user_at (users (registry w)) (msg_sender env)) = false.

Definition registerUser_post (env : Env) (_role : Role) (w : World) : World :=
  let s := registry w in
  mkWorld (this w)
    (mkState (rewardToken s) (owner s) (entered s)
       (<[msg_sender env := User.mk (msg_sender env) _role 0 0 true]> (users s))
       (matches s)
       (if bool_decide (_role = VERIFIER)
        then {[msg_sender env]} ∪ verifiers s else verifiers s)
       (matchCounter s) (totalMatches s) (successfulMatches s)
       (events s ++ [UserRegistered (msg_sender env) _role]))
    (token w).

Definition assignRole_pre (env : Env) (_user : N) (_role : Role) (w : World) : Prop :=
  owner (registry w) = msg_sender env ∧
  User.isActive (user_at (users (registry w)) _user) = true ∧
  _role ≠ NONE.

Definition assignRole_post (env : Env) (_user : N) (_role : Role) (w : World) : World :=
  let s := registry w in
  mkWorld (this w)
    (mkState (rewardToken s) (owner s) (entered s)
       (<[_user := User.set_role _role (user_at (users s) _user)]> (users s))
       (matches s)
       (if bool_decide (_role = VERIFIER)
        then {[_user]} ∪ verifiers s else verifiers s)
       (matchCounter s) (totalMatches s) (successfulMatches s)
       (events s ++ [RoleAssigned _user _role]))
    (token w).

Definition createMatch_pre (env : Env) (_peer1 _peer2 : N) (w : World) : Prop :=
  entered (registry w) = false ∧
  User.isActive (user_at (users (registry w)) (msg_sender env)) = true ∧
  User.role (user_at (users (registry w)) (msg_sender env)) = MATCHMAKER ∧
  _peer1 ≠ address0 ∧ _peer2 ≠ address0 ∧ _peer1 ≠ _peer2 ∧
  matchCounter (registry w) + 1 <= MAX_UINT256 ∧
  totalMatches (registry w) + 1 <= MAX_UINT256.

Definition createMatch_post (env : Env) (_peer1 _peer2 : N) (w : World) : World :=
  let s := registry w in
  let matchId := matchCounter s in
  mkWorld (this w)
    (mkState (rewardToken s) (owner s) false (users s)
       (<[matchId := Match.mk matchId (msg_sender env) _peer1 _peer2
                              REWARD_AMOUNT false (block_timestamp env) 0]>
          (matches s))
       (verifiers s) (matchId + 1) (totalMatches s + 1) (successfulMatches s)
       (events s ++ [MatchCreated matchId (msg_sender env) _peer1 _peer2]))
    (token w).

(** The checks of [verifyMatch] before it writes anything. *)
Definition verifyMatch_checks (env : Env) (_matchId : N) (w : World) : Prop :=
  let s := registry w in
  let m := match_at (matches s) _matchId in
  entered s = false ∧
  msg_sender env ∈ verifiers s ∧
  _matchId < matchCounter s ∧
  Match.isVerified m = false ∧
  Match.createdAt m ≠ 0.

(** The state in which [verifyMatch] calls [_distributeReward]. *)
Definition verifyMatch_marked (env : Env) (_matchId : N) (w : World) : World :=
  let s := registry w in
  let m := match_at (matches s) _matchId in
  mkWorld (this w)
    (mkState (rewardToken s) (owner s) true (users s)
       (<[_matchId := Match.mk (Match.matchId m) (Match.matchmaker m)
                               (Match.peer1 m) (Match.peer2 m)
                               (Match.rewardAmount m) true (Match.createdAt m)
                               (block_timestamp env)]> (matches s))
       (verifiers s) (matchCounter s) (totalMatches s) (successfulMatches s + 1)
       (events s ++ [MatchVerified _matchId (msg_sender env)]))
    (token w).

Definition verifyMatch_pre (env : Env) (_matchId : N) (w : World) : Prop :=
  let s := registry w in
  let m := match_at (matches s) _matchId in
  let u := user_at (users s) (Match.matchmaker m) in
  verifyMatch_checks env _matchId w ∧
  successfulMatches s + 1 <= MAX_UINT256 ∧
  Match.rewardAmount m <= Token.balance (token w) (this w) ∧
  User.totalRewardsEarned u + Match.rewardAmount m <= MAX_UINT256 ∧
  User.successfulMatches u + 1 <= MAX_UINT256 ∧
  transfer_pre (this w) (Match.matchmaker m) (Match.rewardAmount m) (token w).

Definition verifyMatch_post (env : Env) (_matchId : N) (w : World) : World :=
  let s := registry w in
  let m := match_at (matches s) _matchId in
  let u := user_at (users s) (Match.matchmaker m) in
  mkWorld (this w)
    (mkState (rewardToken s) (owner s) false
       (<[Match.matchmaker m :=
            User.mk (User.userAddress u) (User.role u)
                    (User.totalRewardsEarned u + Match.rewardAmount m)
                    (User.successfulMatches u + 1) (User.isActive u)]> (users s))
       (<[_matchId := Match.mk (Match.matchId m) (Match.matchmaker m)
                               (Match.peer1 m) (Match.peer2 m)
                               (Match.rewardAmount m) true (Match.createdAt m)
                               (block_timestamp env)]> (matches s))
       (verifiers s) (matchCounter s) (totalMatches s) (successfulMatches s + 1)
       (events s ++ [MatchVerified _matchId (msg_sender env);
                     RewardDistributed _matchId (Match.matchmaker m)
                                       (Match.rewardAmount m)]))
    (transfer_post (this w) (Match.matchmaker m) (Match.rewardAmount m) (token w)).

Definition distributeReward_pre (_matchId : N) (w : World) : Prop :=
  let s := registry w in
  let m := match_at (matches s) _matchId in
  let u := user_at (users s) (Match.matchmaker m) in
  Match.rewardAmount m <= Token.balance (token w) (this w) ∧
  User.totalRewardsEarned u + Match.rewardAmount m <= MAX_UINT256 ∧
  User.successfulMatches u + 1 <= MAX_UINT256 ∧
  transfer_pre (this w) (Match.matchmaker m) (Match.rewardAmount m) (token w).

Definition distributeReward_post (_matchId : N) (w : World) : World :=
  let s := registry w in
  let m := match_at (matches s) _matchId in
  let u := user_at (users s) (Match.matchmaker m) in
  mkWorld (this w)
    (mkState (rewardToken s) (owner s) (entered s)
       (<[Match.matchmaker m :=
            User.mk (User.userAddress u) (User.role u)
                    (User.totalRewardsEarned u + Match.rewardAmount m)
                    (User.successfulMatches u + 1) (User.isActive u)]> (users s))
       (matches s) (verifiers s) (matchCounter s) (totalMatches s)
       (successfulMatches s)
       (events s ++ [RewardDistributed _matchId (Match.matchmaker m)
                                       (Match.rewardAmount m)]))
    (transfer_post (this w) (Match.matchmaker m) (Match.rewardAmount m) (token w)).

(** * The invariant of the reachable states *)

(** What holds of an allocated match record. *)
Definition match_ok (w : World) (i : N) (m : Match.t) : Prop :=
  Match.matchId m = i ∧
  Match.rewardAmount m = REWARD_AMOUNT ∧
  Match.matchmaker m ≠ this w ∧
  Match.matchmaker m ≠ address0 ∧
  is_Some (users (registry w) !! Match.matchmaker m) ∧
  Match.peer1 m ≠ address0 ∧ Match.peer2 m ≠ address0 ∧
  Match.peer1 m ≠ Match.peer2 m ∧
  Match.createdAt m ≠ 0 ∧
  (if Match.isVerified m then Match.completedAt m ≠ 0
   else Match.completedAt m = 0).

(** What holds of a stored user record. *)
Definition user_ok (a : N) (u : User.t) : Prop :=
  User.isActive u = true ∧ User.userAddress u = a ∧ User.role u ≠ NONE.

Record Inv (w : World) : Prop := {
  inv_entered : entered (registry w) = false;
  inv_counters : matchCounter (registry w) = totalMatches (registry w);
  inv_dom : ∀ i, is_Some (matches (registry w) !! i) ↔ i < matchCounter (registry w);
  inv_size : N.of_nat (size (matches (registry w))) = matchCounter (registry w);
  inv_matches : ∀ i m, matches (registry w) !! i = Some m → match_ok w i m;
  inv_users : ∀ a u, users (registry w) !! a = Some u → user_ok a u
}.

(** [w'] differs from [w] at most in the ledger, the owner and the event
    log of the registry. *)
Definition same_records (w w' : World) : Prop :=
  this w' = this w ∧
  entered (registry w') = entered (registry w) ∧
  users (registry w') = users (registry w) ∧
  matches (registry w') = matches (registry w) ∧
  verifiers (registry w') = verifiers (registry w) ∧
  matchCounter (registry w') = matchCounter (registry w) ∧
  totalMatches (registry w') = totalMatches (registry w) ∧
  successfulMatches (registry w') = successfulMatches (registry w).

(** A call that did not return. *)
Definition failed {A} (r : Result A) : Prop :=
  match r with Ok _ => False | _ => True end.

Definition ReentrantCall : string := "ReentrancyGuard: reentrant call".
Definition MatchmakerNotRegistered : string := "Matchmaker not registered".
Definition OnlyMatchmakers : string := "Only matchmakers can create matches".

(** * Executable histories

    [run l w] plays the transactions [l] (the oldest first) from [w]; it
    yields no state when one of them is ill-formed or fails. *)

Definition valid_envb (self : N) (env : Env) : bool :=
  negb (msg_sender env =? address0) && negb (msg_sender env =? self) &&
  (msg_sender env <=? MAX_ADDRESS) &&
  negb (block_timestamp env =? 0) && (block_timestamp env <=? MAX_UINT256).

Definition valid_callb (c : Call) : bool :=
  match c with
  | RegisterUser _ | RenounceOwnership | TokenRenounceOwnership => true
  | AssignRole a _ | TransferOwnership a | TokenTransferOwnership a =>
      a <=? MAX_ADDRESS
  | CreateMatch a b => (a <=? MAX_ADDRESS) && (b <=? MAX_ADDRESS)
  | VerifyMatch n | FundRewards n | WithdrawTokens n | TokenBurn n =>
      n <=? MAX_UINT256
  | TokenTransfer a n | TokenApprove a n | TokenMint a n =>
      (a <=? MAX_ADDRESS) && (n <=? MAX_UINT256)
  | TokenTransferFrom a b n =>
      (a <=? MAX_ADDRESS) && (b <=? MAX_ADDRESS) && (n <=? MAX_UINT256)
  end.

Fixpoint run (l : list (Env * Call)) (w : World) : option World :=
  match l with
  | [] => Some w
  | (env, c) :: l' =>
      if valid_envb (this w) env && valid_callb c then
        match exec env c w with
        | Ok (_, w') => run l' w'
        | _ => None
        end
      else None
  end.

(** * A concrete scenario (section 8 of the specification)

    Alice registers as MATCHMAKER, Bob as VERIFIER, Carol as ADMIN; Alice
    creates a match between two peers; the deployer funds the registry with
    one reward; Bob verifies the match. *)

Definition DEPLOYER : N := 208.
Definition REGISTRY : N := 192.
Definition TOKEN : N := 193.
Definition ALICE : N := 161.
Definition BOB : N := 176.
Definition CAROL : N := 202.
Definition PEER1 : N := 17.
Definition PEER2 : N := 18.

Definition at_time (sender timestamp : N) : Env :=
  {| msg_sender := sender; block_timestamp := timestamp |}.

Definition deployer : Env := at_time DEPLOYER 1700000000.
Definition alice : Env := at_time ALICE 1700000100.
Definition bob : Env := at_time BOB 1700000200.
Definition carol : Env := at_time CAROL 1700000300.

(** The ledger after [constructor(1000)] by the deployer. *)
Definition token_deployed : Token.State :=
  match Token.constructor deployer 1000 Token.empty with
  | Ok (_, t) => t
  | _ => Token.empty
  end.

Definition w_deployed : World := deployed REGISTRY deployer TOKEN token_deployed.

Definition registrations : list (Env * Call) :=
  [(alice, RegisterUser MATCHMAKER); (bob, RegisterUser VERIFIER);
   (carol, RegisterUser ADMIN)].

Definition w_registered : World := default w_deployed (run registrations w_deployed).

Definition w_created : World :=
  default w_registered (run [(alice, CreateMatch PEER1 PEER2)] w_registered).

Definition w_funded : World :=
  default w_created
    (run [(deployer, TokenTransfer REGISTRY REWARD_AMOUNT)] w_created).

Definition w_verified : World :=
  default w_funded (run [(bob, VerifyMatch 0)] w_funded).

(** The outcome of a registration by an identity that is already
    registered: the role is checked first. *)
Definition reregistration (_role : Role) : string :=
  if bool_decide (_role = NONE) then InvalidRole else AlreadyRegistered.


(** The sum of all balances of the ledger. *)
Definition sum_balances (bs : gmap N N) : N :=
  map_fold (λ _ v acc, v + acc) 0 bs.

(** The number of [createMatch] transactions of a history. *)
Fixpoint created (tr : list (Env * Call)) : nat :=
  match tr with
  | [] => 0
  | (_, CreateMatch _ _) :: tr' => S (created tr')
  | _ :: tr' => created tr'
  end.

(** * Further measures of a state *)

(** The sum of [f] over the records of a table. *)
Definition sum_over {A} (f : A → N) (m : gmap N A) : N :=
  map_fold (λ _ v acc, f v + acc) 0 m.

(** The number of match records marked verified. *)
Definition verified_matches (ms : gmap N Match.t) : N :=
  sum_over (λ m, if Match.isVerified m then 1 else 0) ms.

(** The number of events of a log that satisfy [p]. *)
Fixpoint count_events (p : Event → bool) (l : list Event) : N :=
  match l with
  | [] => 0
  | e :: l' => (if p e then 1 else 0) + count_events p l'
  end.

Definition is_UserRegistered (e : Event) : bool :=
  match e with UserRegistered _ _ => true | _ => false end.
Definition is_MatchCreated (e : Event) : bool :=
  match e with MatchCreated _ _ _ _ => true | _ => false end.
Definition is_MatchVerified (e : Event) : bool :=
  match e with MatchVerified _ _ => true | _ => false end.
Definition is_RewardDistributed (e : Event) : bool :=
  match e with RewardDistributed _ _ _ => true | _ => false end.

(** What links the statistics of a state: per user, per match table, and
    in the event log. *)
Record Stats (w : World) : Prop := {
  stats_rewards : ∀ a,
    User.totalRewardsEarned (user_at (users (registry w)) a) =
    User.successfulMatches (user_at (users (registry w)) a) * REWARD_AMOUNT;
  stats_verified :
    successfulMatches (registry w) = verified_matches (matches (registry w));
  stats_users :
    sum_over User.successfulMatches (users (registry w)) =
    successfulMatches (registry w);
  stats_created_events :
    count_events is_MatchCreated (events (registry w)) =
    totalMatches (registry w);
  stats_verified_events :
    count_events is_MatchVerified (events (registry w)) =
    successfulMatches (registry w);
  stats_reward_events :
    count_events is_RewardDistributed (events (registry w)) =
    successfulMatches (registry w);
  stats_registered_events :
    count_events is_UserRegistered (events (registry w)) =
    N.of_nat (size (users (registry w)))
}.

(** * The outcome of a call, failures included

    For [createMatch] and [verifyMatch] in a state between two
    transactions: which check fails first, and the state written when none
    does. *)

Definition createMatch_outcome (env : Env) (_peer1 _peer2 : N) (w : World)
    : Result (N * World) :=
  let s := registry w in
  let u := user_at (users s) (msg_sender env) in
  if negb (User.isActive u) then Revert MatchmakerNotRegistered
  else if negb (bool_decide (User.role u = MATCHMAKER)) then Revert OnlyMatchmakers
  else if (_peer1 =? address0) || (_peer2 =? address0)
       then Revert "Invalid peer addresses"
  else if _peer1 =? _peer2 then Revert "Peers must be different"
  else if MAX_UINT256 <? matchCounter s + 1 then Panic ARITHMETIC_PANIC
  else Ok (matchCounter s, createMatch_post env _peer1 _peer2 w).

Definition verifyMatch_outcome (env : Env) (_matchId : N) (w : World)
    : Result (unit * World) :=
  let s := registry w in
  let m := match_at (matches s) _matchId in
  let u := user_at (users s) (Match.matchmaker m) in
  if negb (bool_decide (msg_sender env ∈ verifiers s)) then Revert NotVerifier
  else if negb (_matchId <? matchCounter s) then Revert UnknownMatch
  else if Match.isVerified m then Revert AlreadyVerified
  else if MAX_UINT256 <? successfulMatches s + 1 then Panic ARITHMETIC_PANIC
  else if Token.balance (token w) (this w) <? REWARD_AMOUNT
       then Revert InsufficientBalance
  else if MAX_UINT256 <? User.totalRewardsEarned u + REWARD_AMOUNT
       then Panic ARITHMETIC_PANIC
  else if MAX_UINT256 <? Token.balance (token w) (Match.matchmaker m) + REWARD_AMOUNT
       then Panic ARITHMETIC_PANIC
  else Ok (tt, verifyMatch_post env _matchId w).

(** * The admin functions, spelled out *)

(** The ledger after [_spendAllowance(owner, spender, amount)] returned: an
    allowance of [MAX_UINT256] is left as it is. *)
Definition spendAllowance_post (owner spender amount : N) (t : Token.State)
    : Token.State :=
  if Token.allowance t owner spender =? MAX_UINT256 then t
  else
    Token.mkState (Token.balances t)
      (<[(owner, spender) := Token.allowance t owner spender - amount]>
         (Token.allowances t))
      (Token.totalSupply t) (Token.owner t)
      (Token.events t ++
       [Token.Approval owner spender (Token.allowance t owner spender - amount)]).

Definition fundRewards_pre (env : Env) (_amount : N) (w : World) : Prop :=
  owner (registry w) = msg_sender env ∧ 0 < _amount ∧
  (Token.allowance (token w) (msg_sender env) (this w) = MAX_UINT256 ∨
   (_amount <= Token.allowance (token w) (msg_sender env) (this w) ∧
    this w ≠ address0)) ∧
  transfer_pre (msg_sender env) (this w) _amount (token w).

Definition fundRewards_post (env : Env) (_amount : N) (w : World) : World :=
  mkWorld (this w) (registry w)
    (transfer_post (msg_sender env) (this w) _amount
       (spendAllowance_post (msg_sender env) (this w) _amount (token w))).

Definition withdrawTokens_pre (env : Env) (_amount : N) (w : World) : Prop :=
  owner (registry w) = msg_sender env ∧ 0 < _amount ∧
  _amount <= Token.balance (token w) (this w) ∧
  transfer_pre (this w) (msg_sender env) _amount (token w).

Definition withdrawTokens_post (env : Env) (_amount : N) (w : World) : World :=
  mkWorld (this w) (registry w)
    (transfer_post (this w) (msg_sender env) _amount (token w)).

(** The scenario, with an allowance: after the deployment, the deployer
    lets the registry take one reward from its tokens. *)
Definition w_approved : World :=
  default w_deployed
    (run [(deployer, TokenApprove REGISTRY REWARD_AMOUNT)] w_deployed).

(** * The ledger's supply *)

(** The balances of the ledger add up to its total supply, which fits in a
    [uint256]. *)
Definition supply_ok (t : Token.State) : Prop :=
  sum_balances (Token.balances t) = Token.totalSupply t ∧
  Token.totalSupply t <= MAX_UINT256.

(** The whole scenario, as one history from the deployment. *)
Definition scenario : list (Env * Call) :=
  registrations ++
  [(alice, CreateMatch PEER1 PEER2);
   (deployer, TokenTransfer REGISTRY REWARD_AMOUNT);
   (bob, VerifyMatch 0)].

(** The scenario, with the ownership of the registry given up after the
    funding. *)
Definition w_renounced : World :=
  default w_funded (run [(deployer, RenounceOwnership)] w_funded).

(** Which of the two contracts a call can write to. *)
Definition writes_registry_only (c : Call) : bool :=
  match c with
  | RegisterUser _ | AssignRole _ _ | CreateMatch _ _
  | TransferOwnership _ | RenounceOwnership => true
  | _ => false
  end.

Definition writes_ledger_only (c : Call) : bool :=
  match c with
  | FundRewards _ | WithdrawTokens _
  | TokenTransfer _ _ | TokenApprove _ _ | TokenTransferFrom _ _ _
  | TokenMint _ _ | TokenBurn _ | TokenTransferOwnership _
  | TokenRenounceOwnership => true
  | _ => false
  end.

(** * The frontend: [getRoleName] of [BlockLink_Frontend_App.tsx]

    The argument is a JavaScript number: an integer, or something else
    (NaN, an infinity, a fraction). *)
Inductive JsNumber :=
| JsInt (z : Z)
| JsNotInt.

(** [l[n]]: [undefined] ([None]) unless [n] is an index of [l]. *)
Definition js_index {A} (l : list A) (n : JsNumber) : option A :=
  match n with
  | JsInt z => if (0 <=? z)%Z then l !! Z.to_nat z else None
  | JsNotInt => None
  end.

(** [x || d] for a string or [undefined]: [undefined] and the empty string
    are falsy. *)
Definition js_or (x : option string) (d : string) : string :=
  match x with
  | Some EmptyString | None => d
  | Some s => s
  end.

Definition roles : list string := ["NONE"; "MATCHMAKER"; "VERIFIER"; "ADMIN"].

Definition getRoleName (role : JsNumber) : string :=
  js_or (js_index roles role) "UNKNOWN".

(** The number a [Role] is returned as: its position in the [enum]. *)
Definition Role_to_uint (r : Role) : N :=
  match r with NONE => 0 | MATCHMAKER => 1 | VERIFIER => 2 | ADMIN => 3 end.

(** The identifier of a [Role] in the contract. *)
Definition Role_name (r : Role) : string :=
  match r with
  | NONE => "NONE" | MATCHMAKER => "MATCHMAKER"
  | VERIFIER => "VERIFIER" | ADMIN => "ADMIN"
  end.

(** * Reasoning about computations *)

Section Computations.
Context {S : Type}.

Lemma bind_Ok_inv {A B} (c : M S A) (k : A → M S B) s b s' :
  (c ≫= k) s = Ok (b, s') →
  ∃ a s1, c s = Ok (a, s1) ∧ k a s1 = Ok (b, s').
Proof.
  unfold mbind, M_bind, bind. destruct (c s) as [[a s1]| |]; [|done..].
  intros H. by exists a, s1.
Qed.

Lemma bind_Ok_intro {A B} (c : M S A) (k : A → M S B) s a s1 r :
  c s = Ok (a, s1) → k a s1 = r → (c ≫= k) s = r.
Proof. unfold mbind, M_bind, bind. by intros -> ->. Qed.

Lemma bind_Revert {A B} (c : M S A) (k : A → M S B) s reason :
  c s = Revert reason → (c ≫= k) s = Revert reason.
Proof. unfold mbind, M_bind, bind. by intros ->. Qed.

Lemma bind_Panic {A B} (c : M S A) (k : A → M S B) s code :
  c s = Panic code → (c ≫= k) s = Panic code.
Proof. unfold mbind, M_bind, bind. by intros ->. Qed.

Lemma ret_inv {A} (a b : A) (s s' : S) :
  ret a s = Ok (b, s') → b = a ∧ s' = s.
Proof. unfold ret. by intros [= -> ->]. Qed.

Lemma gets_inv {A} (f : S → A) s a s' :
  gets f s = Ok (a, s') → a = f s ∧ s' = s.
Proof. unfold gets. by intros [= <- <-]. Qed.

Lemma modify_inv (f : S → S) s u s' :
  modify f s = Ok (u, s') → s' = f s.
Proof. unfold modify. by intros [= <-]. Qed.

Lemma require_inv (cond : bool) reason (s : S) u s' :
  require cond reason s = Ok (u, s') → cond = true ∧ s' = s.
Proof. unfold require, ret, revert. destruct cond; [by intros [= <-]|done]. Qed.

Lemma require_true (cond : bool) reason (s : S) :
  cond = true → require cond reason s = Ok (tt, s).
Proof. by intros ->. Qed.

Lemma require_false (cond : bool) reason (s : S) :
  cond = false → require (S:=S) cond reason s = Revert reason.
Proof. by intros ->. Qed.

Lemma checked_add_inv x y (s : S) z s' :
  checked_add x y s = Ok (z, s') → z = x + y ∧ x + y <= MAX_UINT256 ∧ s' = s.
Proof.
  unfold checked_add, ret, panic. destruct (N.leb_spec (x + y) MAX_UINT256); [|done].
  by intros [= <- <-].
Qed.

Lemma checked_add_ok x y (s : S) :
  x + y <= MAX_UINT256 → checked_add x y s = Ok (x + y, s).
Proof.
  intros H. unfold checked_add, ret. by destruct (N.leb_spec (x + y) MAX_UINT256); [|lia].
Qed.

Lemma checked_add_overflow x y (s : S) :
  MAX_UINT256 < x + y → checked_add x y s = Panic ARITHMETIC_PANIC.
Proof.
  intros H. unfold checked_add, panic. by destruct (N.leb_spec (x + y) MAX_UINT256); [lia|].
Qed.

Lemma checked_mul_inv x y (s : S) z s' :
  checked_mul x y s = Ok (z, s') → z = x * y ∧ x * y <= MAX_UINT256 ∧ s' = s.
Proof.
  unfold checked_mul, ret, panic. destruct (N.leb_spec (x * y) MAX_UINT256); [|done].
  by intros [= <- <-].
Qed.

Lemma checked_mul_ok x y (s : S) :
  x * y <= MAX_UINT256 → checked_mul x y s = Ok (x * y, s).
Proof.
  intros H. unfold checked_mul, ret. by destruct (N.leb_spec (x * y) MAX_UINT256); [|lia].
Qed.

Lemma checked_mul_overflow x y (s : S) :
  MAX_UINT256 < x * y → checked_mul x y s = Panic ARITHMETIC_PANIC.
Proof.
  intros H. unfold checked_mul, panic. by destruct (N.leb_spec (x * y) MAX_UINT256); [lia|].
Qed.

(** A transaction that aborts leaves the state as it was. *)
Lemma transact_Ok {A} (c : M S A) s a s' :
  c s = Ok (a, s') → transact c s = (s', Ok a).
Proof. unfold transact. by intros ->. Qed.

Lemma transact_Revert {A} (c : M S A) s reason :
  c s = Revert reason → transact c s = (s, Revert reason).
Proof. unfold transact. by intros ->. Qed.

Lemma transact_Panic {A} (c : M S A) s code :
  c s = Panic code → transact c s = (s, Panic code).
Proof. unfold transact. by intros ->. Qed.

Lemma transact_failed {A} (c : M S A) s :
  (∀ a s', c s ≠ Ok (a, s')) → (transact c s).1 = s.
Proof.
  unfold transact. destruct (c s) as [[a s']| |]; [|done..].
  intros H. by destruct (H a s').
Qed.
End Computations.

Lemma read_inv {A} (f : State → A) w a w' :
  read f w = Ok (a, w') → a = f (registry w) ∧ w' = w.
Proof. unfold read. intros H. by apply gets_inv in H. Qed.

Lemma update_inv (f : State → State) w u w' :
  update f w = Ok (u, w') → w' = mkWorld (this w) (f (registry w)) (token w).
Proof. unfold update. intros H. by apply modify_inv in H. Qed.

Lemma emit_inv e w u w' :
  emit e w = Ok (u, w') →
  w' = mkWorld (this w) (add_event e (registry w)) (token w).
Proof. unfold emit. apply update_inv. Qed.

Lemma token_emit_inv e t u t' :
  Token.emit e t = Ok (u, t') →
  Token.balances t' = Token.balances t ∧
  Token.allowances t' = Token.allowances t ∧
  Token.totalSupply t' = Token.totalSupply t ∧
  Token.owner t' = Token.owner t.
Proof. unfold Token.emit. intros ->%modify_inv. done. Qed.

Lemma call_token_inv {A} env (c : Env → M Token.State A) w a w' :
  call_token env c w = Ok (a, w') →
  ∃ t', c {| msg_sender := this w; block_timestamp := block_timestamp env |}
          (token w) = Ok (a, t') ∧
        w' = mkWorld (this w) (registry w) t'.
Proof.
  unfold call_token. case_match; [|done..]. destruct a0. intros [= <- <-]. eauto.
Qed.

Lemma on_token_inv {A} (c : M Token.State A) w u w' :
  on_token c w = Ok (u, w') →
  ∃ a t', c (token w) = Ok (a, t') ∧ w' = mkWorld (this w) (registry w) t'.
Proof.
  unfold on_token. case_match; [|done..]. destruct a. intros [= <-]. eauto.
Qed.

(** Inversion of a successful run, one statement at a time. *)
Ltac minv1 :=
  match goal with
  | H : (_ ≫= _) _ = Ok _ |- _ =>
      apply bind_Ok_inv in H; destruct H as (? & ? & ? & ?)
  | H : ret _ _ = Ok _ |- _ => apply ret_inv in H; destruct H as [? ?]
  | H : require _ _ _ = Ok _ |- _ => apply require_inv in H; destruct H as [? ?]
  | H : read _ _ = Ok _ |- _ => apply read_inv in H; destruct H as [? ?]
  | H : gets _ _ = Ok _ |- _ => apply gets_inv in H; destruct H as [? ?]
  | H : update _ _ = Ok _ |- _ => apply update_inv in H
  | H : modify _ _ = Ok _ |- _ => apply modify_inv in H
  | H : emit _ _ = Ok _ |- _ => apply emit_inv in H
  | H : checked_add _ _ _ = Ok _ |- _ =>
      apply checked_add_inv in H; destruct H as (? & ? & ?)
  | H : checked_mul _ _ _ = Ok _ |- _ =>
      apply checked_mul_inv in H; destruct H as (? & ? & ?)
  | H : call_token _ _ _ = Ok _ |- _ =>
      apply call_token_inv in H; destruct H as (? & ? & ?)
  | H : on_token _ _ = Ok _ |- _ =>
      apply on_token_inv in H; destruct H as (? & ? & ? & ?)
  | H : (if ?b then _ else _) _ = Ok _ |- _ => destruct b eqn:?
  end.

(** Projections of updated records. *)
Ltac fields :=
  unfold Token.balance, Token.allowance in *;
  cbn [this registry token
       rewardToken owner entered users matches verifiers matchCounter
       totalMatches successfulMatches events
       set_owner set_entered set_users set_matches set_verifiers
       set_matchCounter set_totalMatches set_successfulMatches add_event
       update_user update_match
       User.userAddress User.role User.totalRewardsEarned
       User.successfulMatches User.isActive
       User.set_role User.set_totalRewardsEarned User.set_successfulMatches
       Match.matchId Match.matchmaker Match.peer1 Match.peer2
       Match.rewardAmount Match.isVerified Match.createdAt Match.completedAt
       Match.set_isVerified Match.set_completedAt
       Token.balances Token.allowances Token.totalSupply Token.owner
       Token.events Token.set_balances Token.set_allowances
       Token.set_totalSupply Token.set_owner
       msg_sender block_timestamp fst snd] in *.

Ltac setters :=
  unfold update_user, update_match in *;
  unfold set_owner, set_entered, set_users, set_matches, set_verifiers,
    set_matchCounter, set_totalMatches, set_successfulMatches, add_event in *;
  fields.

Ltac minv :=
  repeat (minv1; subst);
  repeat match goal with x : unit |- _ => destruct x end;
  fields.

Lemma user_at_insert_eq us a u : user_at (<[a := u]> us) a = u.
Proof. unfold user_at. by rewrite lookup_insert_eq. Qed.

Lemma user_at_insert_ne us a b u : a ≠ b → user_at (<[a := u]> us) b = user_at us b.
Proof. intros H. unfold user_at. by rewrite lookup_insert_ne. Qed.

Lemma match_at_insert_eq ms i m : match_at (<[i := m]> ms) i = m.
Proof. unfold match_at. by rewrite lookup_insert_eq. Qed.

Lemma match_at_insert_ne ms i j m : i ≠ j → match_at (<[i := m]> ms) j = match_at ms j.
Proof. intros H. unfold match_at. by rewrite lookup_insert_ne. Qed.

Lemma match_at_Some ms i m : ms !! i = Some m → match_at ms i = m.
Proof. unfold match_at. by intros ->. Qed.

Lemma user_at_Some us a u : us !! a = Some u → user_at us a = u.
Proof. unfold user_at. by intros ->. Qed.

Lemma user_at_None us a : us !! a = None → user_at us a = User.zero.
Proof. unfold user_at. by intros ->. Qed.

Lemma users_insert_insert (us : gmap N User.t) a u u' :
  <[a := u]> (<[a := u']> us) = <[a := u]> us.
Proof. apply insert_insert_eq. Qed.

Lemma matches_insert_insert (ms : gmap N Match.t) i m m' :
  <[i := m]> (<[i := m']> ms) = <[i := m]> ms.
Proof. apply insert_insert_eq. Qed.

Lemma balances_lookup_insert (bs : gmap N N) a n : <[a := n]> bs !! a = Some n.
Proof. apply lookup_insert_eq. Qed.

Create Rewrite HintDb lookups.

#[global] Hint Rewrite user_at_insert_eq match_at_insert_eq users_insert_insert
  matches_insert_insert balances_lookup_insert : lookups.

Ltac norm := repeat (progress (autorewrite with lookups in *; fields)).

Lemma call_token_intro {A} env (c : Env → M Token.State A) w a t' :
  c {| msg_sender := this w; block_timestamp := block_timestamp env |}
    (token w) = Ok (a, t') →
  call_token env c w = Ok (a, mkWorld (this w) (registry w) t').
Proof. unfold call_token. by intros ->. Qed.

Lemma on_token_intro {A} (c : M Token.State A) w a t' :
  c (token w) = Ok (a, t') →
  on_token c w = Ok (tt, mkWorld (this w) (registry w) t').
Proof. unfold on_token. by intros ->. Qed.

(** Running a computation forward, one statement at a time; the conditions
    of [require] and of the checked operations are left as goals. *)
Ltac mstep_call := fail.

Ltac mstep :=
  first [ mstep_call | mstep_prim ]
with mstep_prim :=
  lazymatch goal with
  | |- ((if ?b then _ else _) ≫= _) _ = _ => destruct b eqn:?
  | |- (_ ≫= _) _ = _ => eapply bind_Ok_intro; [|cbv beta]
  | |- require _ _ _ = Ok _ => apply require_true
  | |- checked_add _ _ _ = Ok _ => apply checked_add_ok
  | |- checked_mul _ _ _ = Ok _ => apply checked_mul_ok
  | |- call_token _ _ _ = Ok _ => apply call_token_intro; cbv beta
  | |- on_token _ _ = Ok _ => eapply on_token_intro
  | |- read _ _ = Ok _ => reflexivity
  | |- gets _ _ = Ok _ => reflexivity
  | |- update _ _ = Ok _ => reflexivity
  | |- modify _ _ = Ok _ => reflexivity
  | |- emit _ _ = Ok _ => reflexivity
  | |- Token.emit _ _ = Ok _ => reflexivity
  | |- Token.balanceOf _ _ = Ok _ => reflexivity
  | |- ret _ _ = Ok _ => reflexivity
  | |- (if ?b then _ else _) _ = Ok _ => destruct b eqn:?
  end.

Ltac mrun := repeat mstep.

(** Boolean conditions as propositions. *)
Ltac bprop :=
  repeat first
    [ progress (rewrite ?negb_true_iff, ?negb_false_iff, ?andb_true_iff,
        ?N.eqb_eq, ?N.eqb_neq, ?N.ltb_lt, ?N.ltb_ge, ?N.leb_le, ?N.leb_gt,
        ?bool_decide_eq_true, ?bool_decide_eq_false in *)
    | progress destruct_and? ].

(** * The functions, characterised *)

Lemma transfer_Ok from to amount t u t' :
  Token._transfer from to amount t = Ok (u, t') ↔
  transfer_pre from to amount t ∧ t' = transfer_post from to amount t.
Proof.
  unfold Token._transfer, Token.emit, transfer_pre, transfer_post, credit, debit.
  split.
  - intros H. minv. bprop. done.
  - intros ((? & ? & ? & ?) & ->). destruct u. fields.
    mrun; bprop; fields; done.
Qed.

Ltac mstep_call ::=
  lazymatch goal with
  | |- Token._transfer _ _ _ _ = Ok _ =>
      apply (transfer_Ok _ _ _ _ tt); split; [|reflexivity]
  end.

Lemma registerUser_Ok env _role w w' :
  registerUser env _role w = Ok (tt, w') ↔
  registerUser_pre env _role w ∧ w' = registerUser_post env _role w.
Proof.
  unfold registerUser, registerUser_pre, registerUser_post. split.
  - intros H. minv; bprop; done.
  - intros ((? & ?) & ->). mrun; bprop; done.
Qed.

Lemma assignRole_Ok env _user _role w w' :
  assignRole env _user _role w = Ok (tt, w') ↔
  assignRole_pre env _user _role w ∧ w' = assignRole_post env _user _role w.
Proof.
  unfold assignRole, onlyOwner, assignRole_pre, assignRole_post. split.
  - intros H. minv; bprop; done.
  - intros ((? & ? & ?) & ->). mrun; bprop; done.
Qed.

Lemma createMatch_Ok env _peer1 _peer2 w i w' :
  createMatch env _peer1 _peer2 w = Ok (i, w') ↔
  createMatch_pre env _peer1 _peer2 w ∧
  i = matchCounter (registry w) ∧
  w' = createMatch_post env _peer1 _peer2 w.
Proof.
  unfold createMatch, nonReentrant, createMatch_pre, createMatch_post. split.
  - intros H. minv. bprop. done.
  - intros ((? & ? & ? & ? & ? & ? & ? & ?) & -> & ->).
    mrun; bprop; fields; done.
Qed.

Lemma verifyMatch_mark_Ok env _matchId w w' :
  entered (registry w) = true →
  verifyMatch_mark env _matchId w = Ok (tt, w') ↔
  (let s := registry w in
   let m := match_at (matches s) _matchId in
   msg_sender env ∈ verifiers s ∧ _matchId < matchCounter s ∧
   Match.isVerified m = false ∧ Match.createdAt m ≠ 0 ∧
   successfulMatches s + 1 <= MAX_UINT256) ∧
  w' = verifyMatch_marked env _matchId w.
Proof.
  unfold verifyMatch_mark, verifyMatch_marked. intros He. split.
  - intros H. minv. bprop. setters. norm. rewrite He. done.
  - cbv zeta. intros ((? & ? & ? & ? & ?) & ->).
    mrun; bprop; fields; try done. setters. norm. by rewrite He.
Qed.
Lemma distributeReward_Ok env _matchId w w' :
  _distributeReward env _matchId w = Ok (tt, w') ↔
  distributeReward_pre _matchId w ∧ w' = distributeReward_post _matchId w.
Proof.
  unfold _distributeReward, Token.transfer, Token.balanceOf,
    distributeReward_pre, distributeReward_post.
  split.
  - intros H. minv. bprop.
    match goal with H : Token._transfer _ _ _ _ = _ |- _ =>
      apply transfer_Ok in H; destruct H as [? ->] end.
    setters. norm. done.
  - cbv zeta. intros ((? & ? & ? & ?) & ->).
    mrun; bprop; setters; norm; done.
Qed.

Lemma verifyMatch_Ok env _matchId w w' :
  verifyMatch env _matchId w = Ok (tt, w') ↔
  verifyMatch_pre env _matchId w ∧ w' = verifyMatch_post env _matchId w.
Proof.
  unfold verifyMatch, nonReentrant. split.
  - intros H. minv. bprop.
    match goal with H : verifyMatch_mark _ _ _ = _ |- _ =>
      apply verifyMatch_mark_Ok in H; [destruct H as [? ->]|done] end.
    match goal with H : _distributeReward _ _ _ = _ |- _ =>
      apply distributeReward_Ok in H; destruct H as [? ->] end.
    unfold verifyMatch_pre, verifyMatch_checks, verifyMatch_post,
      distributeReward_pre, distributeReward_post, verifyMatch_marked in *.
    setters. norm. cbv zeta in *. bprop. 
    rewrite <- (assoc_L (++)). done.
  - intros [(Hc & ? & ? & ? & ? & ?) ->]. destruct Hc as (? & ? & ? & ? & ?).
    eapply bind_Ok_intro; [reflexivity|]. cbv beta.
    eapply bind_Ok_intro; [apply require_true; by bprop|]. cbv beta.
    eapply bind_Ok_intro; [reflexivity|]. cbv beta.
    eapply bind_Ok_intro.
    { eapply bind_Ok_intro.
      - apply verifyMatch_mark_Ok; [done|]. split; [|reflexivity]. done.
      - apply distributeReward_Ok. split; [|reflexivity].
        unfold distributeReward_pre, verifyMatch_marked. setters. norm. done. }
    cbv beta. mrun.
    unfold verifyMatch_post, distributeReward_post, verifyMatch_marked.
    setters. norm. rewrite <- (assoc_L (++)). done.
Qed.
Lemma same_records_refl w t : same_records w (mkWorld (this w) (registry w) t).
Proof. done. Qed.

Lemma fundRewards_frame env _amount w w' :
  fundRewards env _amount w = Ok (tt, w') → same_records w w'.
Proof. unfold fundRewards, onlyOwner. intros H. minv. done. Qed.

Lemma withdrawTokens_frame env _amount w w' :
  withdrawTokens env _amount w = Ok (tt, w') → same_records w w'.
Proof. unfold withdrawTokens, onlyOwner. intros H. minv. done. Qed.

Lemma transferOwnership_frame env newOwner w w' :
  transferOwnership env newOwner w = Ok (tt, w') → same_records w w'.
Proof. unfold transferOwnership, onlyOwner. intros H. minv. done. Qed.

Lemma renounceOwnership_frame env w w' :
  renounceOwnership env w = Ok (tt, w') → same_records w w'.
Proof. unfold renounceOwnership, onlyOwner. intros H. minv. done. Qed.

Lemma on_token_frame {A} (c : M Token.State A) w w' :
  on_token c w = Ok (tt, w') → same_records w w'.
Proof. intros H. minv. done. Qed.

Lemma Inv_same_records w w' : same_records w w' → Inv w → Inv w'.
Proof.
  intros (Ht & He & Hu & Hm & _ & Hc & Htot & _) [? ? ? ? ? ?].
  split; unfold match_ok; rewrite ?Ht, ?He, ?Hu, ?Hm, ?Hc, ?Htot; done.
Qed.

Lemma Inv_deployed self env _tokenAddress t :
  Inv (deployed self env _tokenAddress t).
Proof.
  split; cbn; try done.
  intros i. rewrite lookup_empty. split; [by intros []|lia].
Qed.


Lemma match_ok_mono w w' i m :
  this w' = this w →
  (∀ a, is_Some (users (registry w) !! a) → is_Some (users (registry w') !! a)) →
  match_ok w i m → match_ok w' i m.
Proof.
  intros Ht Hu H. unfold match_ok in *. rewrite Ht. destruct_and!.
  split_and!; auto.
Qed.

Lemma Inv_registerUser env _role w w' :
  registerUser env _role w = Ok (tt, w') → Inv w → Inv w'.
Proof.
  intros [[Hr Ha] ->]%registerUser_Ok [He Hc Hd Hs HM HU].
  unfold registerUser_post. split; fields; try done.
  - intros i m Hm. eapply match_ok_mono, HM; [done| |done].
    intros a. fields. rewrite lookup_insert_is_Some. 
    destruct (decide (msg_sender env = a)); auto.
  - intros a u. rewrite lookup_insert_Some. intros [[<- <-]|[? ?]]; [done|eauto].
Qed.

Lemma user_at_active us a :
  User.isActive (user_at us a) = true → us !! a = Some (user_at us a).
Proof. unfold user_at. by destruct (us !! a). Qed.

Lemma Inv_assignRole env _user _role w w' :
  assignRole env _user _role w = Ok (tt, w') → Inv w → Inv w'.
Proof.
  intros [(Ho & Ha & Hr) ->]%assignRole_Ok [He Hc Hd Hs HM HU].
  unfold assignRole_post. split; fields; try done.
  - intros i m Hm. eapply match_ok_mono, HM; [done| |done].
    intros a. fields. rewrite lookup_insert_is_Some.
    destruct (decide (_user = a)); auto.
  - intros a u. rewrite lookup_insert_Some. intros [[<- <-]|[? ?]]; [|eauto].
    apply user_at_active, HU in Ha as (? & ? & ?). done.
Qed.

Lemma Inv_createMatch env _peer1 _peer2 w i w' :
  valid_env (this w) env →
  createMatch env _peer1 _peer2 w = Ok (i, w') → Inv w → Inv w'.
Proof.
  intros (Hs0 & Hst & _ & Hts & _).
  intros [(_ & Ha & Hr & Hp1 & Hp2 & Hp & Hmax & _) [-> ->]]%createMatch_Ok.
  intros [He Hc Hd Hs HM HU].
  assert (matches (registry w) !! matchCounter (registry w) = None) as Hfresh.
  { apply eq_None_not_Some. rewrite Hd. lia. }
  unfold createMatch_post. split; fields; try done.
  - by rewrite Hc.
  - intros i. rewrite lookup_insert_is_Some, Hd. lia.
  - rewrite map_size_insert_None by done. lia.
  - intros i m. rewrite lookup_insert_Some. intros [[<- <-]|[? Hm]].
    + unfold match_ok; fields. split_and!; try done.
      apply user_at_active in Ha. by rewrite Ha.
    + by eapply match_ok_mono, HM.
Qed.

Lemma Inv_verifyMatch env _matchId w w' :
  valid_env (this w) env →
  verifyMatch env _matchId w = Ok (tt, w') → Inv w → Inv w'.
Proof.
  intros (_ & _ & _ & Hts & _).
  intros [((_ & Hv & Hi & Hnv & Hcr) & _) ->]%verifyMatch_Ok.
  intros [He Hc Hd Hs HM HU].
  destruct (proj2 (Hd _matchId) Hi) as [m Hm].
  rewrite (match_at_Some _ _ _ Hm) in *.
  destruct (HM _ _ Hm) as (?&?&?&?&[u Hu]&?&?&?&?&?).
  unfold verifyMatch_post. rewrite (match_at_Some _ _ _ Hm).
  rewrite (user_at_Some _ _ _ Hu).
  assert (∀ a, is_Some (users (registry w) !! a) →
               is_Some (<[Match.matchmaker m := 
                 User.mk (User.userAddress u) (User.role u)
                    (User.totalRewardsEarned u + Match.rewardAmount m)
                    (User.successfulMatches u + 1) (User.isActive u)]> (users (registry w)) !! a)) as Hmono.
  { intros a. rewrite lookup_insert_is_Some. destruct (decide (Match.matchmaker m = a)); auto. }
  split; fields; try done.
  - intros i. rewrite lookup_insert_is_Some, Hd. 
    destruct (decide (_matchId = i)) as [<-|]; [tauto|]. tauto.
  - rewrite map_size_insert_Some by done. done.
  - intros i m'. rewrite lookup_insert_Some. intros [[<- <-]|[? Hm']].
    + unfold match_ok; fields. split_and!; try done. by apply Hmono.
    + eapply match_ok_mono, HM; done.
  - intros a u'. rewrite lookup_insert_Some. intros [[<- <-]|[? ?]]; [|eauto].
    apply HU in Hu as (?&?&?). by split_and!.
Qed.

Lemma exec_token_frame env c w w' :
  match c with
  | RegisterUser _ | AssignRole _ _ | CreateMatch _ _ | VerifyMatch _ => False
  | _ => True
  end →
  exec env c w = Ok (tt, w') → same_records w w'.
Proof.
  intros Hc H. destruct c; try done; cbn [exec] in H;
    eauto using fundRewards_frame, withdrawTokens_frame,
      transferOwnership_frame, renounceOwnership_frame, on_token_frame.
Qed.

Lemma Inv_exec env c w w' :
  valid_env (this w) env → exec env c w = Ok (tt, w') → Inv w → Inv w'.
Proof.
  intros Hv H HI.
  destruct c;
    try (by eapply Inv_same_records; [eapply exec_token_frame; [|exact H]|]);
    cbn [exec] in H.
  - by eapply Inv_registerUser.
  - by eapply Inv_assignRole.
  - minv. by eapply Inv_createMatch.
  - by eapply Inv_verifyMatch.
Qed.

Lemma exec_this env c w w' : exec env c w = Ok (tt, w') → this w' = this w.
Proof.
  intros H.
  destruct c;
    try (by eapply exec_token_frame in H as [? _]);
    cbn [exec] in H.
  - by apply registerUser_Ok in H as [_ ->].
  - by apply assignRole_Ok in H as [_ ->].
  - minv. by match goal with H : createMatch _ _ _ _ = _ |- _ =>
      apply createMatch_Ok in H as (_ & _ & ->) end.
  - by apply verifyMatch_Ok in H as [_ ->].
Qed.

Lemma steps_this w0 tr w : steps w0 tr w → this w = this w0.
Proof.
  induction 1 as [|tr w env c w' _ IH _ _ Hx]; [done|].
  rewrite <- IH. by eapply exec_this.
Qed.

Lemma steps_Inv w0 tr w : Inv w0 → steps w0 tr w → Inv w.
Proof. intros H0. induction 1; [done|]. by eapply Inv_exec. Qed.

Lemma reachable_Inv w : reachable w → Inv w.
Proof.
  intros (w0 & tr & (self & env & a & t & _ & ->) & H).
  eapply steps_Inv; [apply Inv_deployed|done].
Qed.

(** ** Executable histories are histories *)

Lemma valid_envb_spec self env : valid_envb self env = true → valid_env self env.
Proof. unfold valid_envb, valid_env. intros H. bprop. done. Qed.

Lemma valid_callb_spec c : valid_callb c = true → valid_call c.
Proof. destruct c; cbn [valid_callb valid_call]; intros H; bprop; done. Qed.

Lemma run_steps w0 tr l w w' :
  steps w0 tr w → run l w = Some w' → steps w0 (rev l ++ tr) w'.
Proof.
  revert tr w. induction l as [|[env c] l IH]; intros tr w Hs; cbn [run rev].
  - by intros [= <-].
  - destruct (valid_envb (this w) env && valid_callb c) eqn:Hv; [|done].
    apply andb_true_iff in Hv as [He Hc].
    destruct (exec env c w) as [[[] w1]| |] eqn:Hx; [|done..].
    intros Hr. rewrite <- (assoc_L (++)). cbn [app]. eapply IH; [|done].
    econstructor; eauto using valid_envb_spec, valid_callb_spec.
Qed.

Lemma run_reachable w l w' : reachable w → run l w = Some w' → reachable w'.
Proof.
  intros (w0 & tr & Hi & Hs) Hr. exists w0, (rev l ++ tr)%list.
  split; [done|]. by eapply run_steps.
Qed.

Lemma initial_reachable w : initial w → reachable w.
Proof. intros H. exists w, []. split; [done|constructor]. Qed.

Lemma w_deployed_reachable : reachable w_deployed.
Proof.
  apply initial_reachable. exists REGISTRY, deployer, TOKEN, token_deployed.
  split; [|done]. by apply valid_envb_spec.
Qed.

Lemma w_registered_reachable : reachable w_registered.
Proof.
  apply (run_reachable w_deployed registrations);
    [apply w_deployed_reachable|by vm_compute].
Qed.

Lemma w_created_reachable : reachable w_created.
Proof.
  apply (run_reachable w_registered [(alice, CreateMatch PEER1 PEER2)]);
    [apply w_registered_reachable|by vm_compute].
Qed.

Lemma w_funded_reachable : reachable w_funded.
Proof.
  apply (run_reachable w_created
           [(deployer, TokenTransfer REGISTRY REWARD_AMOUNT)]);
    [apply w_created_reachable|by vm_compute].
Qed.

Lemma w_verified_reachable : reachable w_verified.
Proof.
  apply (run_reachable w_funded [(bob, VerifyMatch 0)]);
    [apply w_funded_reachable|by vm_compute].
Qed.

(** * Failing calls *)

Lemma nonReentrant_entered {A} (body : M World A) w :
  entered (registry w) = true →
  nonReentrant body w = Revert "ReentrancyGuard: reentrant call".
Proof.
  intros He. unfold nonReentrant.
  eapply bind_Ok_intro; [reflexivity|]. cbv beta. rewrite He.
  by apply bind_Revert.
Qed.

Lemma nonReentrant_Revert {A} (body : M World A) w reason :
  entered (registry w) = false →
  body (mkWorld (this w) (set_entered true (registry w)) (token w)) = Revert reason →
  nonReentrant body w = Revert reason.
Proof.
  intros He Hb. unfold nonReentrant.
  eapply bind_Ok_intro; [reflexivity|]. cbv beta. rewrite He.
  eapply bind_Ok_intro; [reflexivity|]. cbv beta.
  eapply bind_Ok_intro; [reflexivity|]. cbv beta.
  by apply bind_Revert.
Qed.

Lemma distributeReward_insufficient env _matchId w :
  Token.balance (token w) (this w) <
    Match.rewardAmount (match_at (matches (registry w)) _matchId) →
  _distributeReward env _matchId w = Revert InsufficientBalance.
Proof.
  intros Hb. unfold _distributeReward.
  do 3 (eapply bind_Ok_intro; [mrun|]; cbv beta).
  apply bind_Revert, require_false. bprop. done.
Qed.

Lemma failed_not_Ok {A} (r : Result A) : (∀ a, r ≠ Ok a) → failed r.
Proof. destruct r; [|done..]. intros H. by destruct (H a). Qed.

Lemma transact_not_Ok {S A} (c : M S A) s :
  (∀ a s', c s ≠ Ok (a, s')) →
  (transact c s).1 = s ∧ failed (transact c s).2.
Proof.
  unfold transact. destruct (c s) as [[a s']| |]; [|done..].
  intros H. by destruct (H a s').
Qed.


Lemma createMatch_not_matchmaker env _peer1 _peer2 w :
  entered (registry w) = false →
  User.role (user_at (users (registry w)) (msg_sender env)) ≠ MATCHMAKER →
  createMatch env _peer1 _peer2 w =
    Revert (if User.isActive (user_at (users (registry w)) (msg_sender env))
            then OnlyMatchmakers else MatchmakerNotRegistered).
Proof.
  intros He Hr. unfold createMatch. apply nonReentrant_Revert; [done|].
  eapply bind_Ok_intro; [mrun|]; cbv beta. fields.
  destruct (User.isActive _) eqn:Ha.
  - eapply bind_Ok_intro; [by apply require_true|]; cbv beta.
    apply bind_Revert, require_false. by bprop.
  - by apply bind_Revert, require_false.
Qed.

Lemma verifyMatch_not_verifier env _matchId w :
  entered (registry w) = false →
  msg_sender env ∉ verifiers (registry w) →
  verifyMatch env _matchId w = Revert NotVerifier.
Proof.
  intros He Hv. unfold verifyMatch. apply nonReentrant_Revert; [done|].
  apply bind_Revert. unfold verifyMatch_mark.
  eapply bind_Ok_intro; [mrun|]; cbv beta. fields.
  apply bind_Revert, require_false. by bprop.
Qed.


(** ** The verifier set only grows *)

Lemma exec_verifiers env c w w' :
  exec env c w = Ok (tt, w') → verifiers (registry w) ⊆ verifiers (registry w').
Proof.
  intros H.
  destruct c;
    try (by eapply exec_token_frame in H as (_&_&_&_&->&_));
    cbn [exec] in H.
  - apply registerUser_Ok in H as [_ ->]. unfold registerUser_post; fields.
    case_bool_decide; set_solver.
  - apply assignRole_Ok in H as [_ ->]. unfold assignRole_post; fields.
    case_bool_decide; set_solver.
  - minv. match goal with H : createMatch _ _ _ _ = _ |- _ =>
      apply createMatch_Ok in H as (_ & _ & ->) end. done.
  - by apply verifyMatch_Ok in H as [_ ->].
Qed.


(** ** A registered user stays registered *)

Lemma user_at_insert us a b u :
  user_at (<[a := u]> us) b = if decide (a = b) then u else user_at us b.
Proof.
  case_decide as H; [subst; apply user_at_insert_eq|by apply user_at_insert_ne].
Qed.

Lemma exec_active env c w w' a :
  exec env c w = Ok (tt, w') →
  User.isActive (user_at (users (registry w)) a) = true →
  User.isActive (user_at (users (registry w')) a) = true.
Proof.
  intros H Ha.
  destruct c;
    try (by eapply exec_token_frame in H as (_&_&->&_));
    cbn [exec] in H.
  - apply registerUser_Ok in H as [_ ->]. unfold registerUser_post; fields.
    rewrite user_at_insert. by case_decide.
  - apply assignRole_Ok in H as [_ ->]. unfold assignRole_post; fields.
    rewrite user_at_insert. case_decide; [by subst|done].
  - minv. match goal with H : createMatch _ _ _ _ = _ |- _ =>
      apply createMatch_Ok in H as (_ & _ & ->) end. done.
  - apply verifyMatch_Ok in H as [_ ->]. unfold verifyMatch_post; fields.
    rewrite user_at_insert. case_decide; [by subst|done].
Qed.

Lemma steps_active w0 tr w a :
  steps w0 tr w →
  User.isActive (user_at (users (registry w0)) a) = true →
  User.isActive (user_at (users (registry w)) a) = true.
Proof. induction 1; eauto using exec_active. Qed.

Lemma registerUser_NONE env w : registerUser env NONE w = Revert InvalidRole.
Proof. unfold registerUser. by apply bind_Revert. Qed.

Lemma registerUser_active env _role w :
  _role ≠ NONE →
  User.isActive (user_at (users (registry w)) (msg_sender env)) = true →
  registerUser env _role w = Revert AlreadyRegistered.
Proof.
  intros Hr Ha. unfold registerUser.
  eapply bind_Ok_intro; [apply require_true; by bprop|]; cbv beta.
  eapply bind_Ok_intro; [mrun|]; cbv beta.
  apply bind_Revert, require_false. by rewrite Ha.
Qed.

Lemma registerUser_again env _role w :
  User.isActive (user_at (users (registry w)) (msg_sender env)) = true →
  transact (registerUser env _role) w = (w, Revert (reregistration _role)).
Proof.
  intros Ha. apply transact_Revert. unfold reregistration. case_bool_decide.
  - subst. apply registerUser_NONE.
  - by apply registerUser_active.
Qed.


(** ** Who appears in the user table *)

Lemma exec_users_None env c w w' a :
  Inv w →
  exec env c w = Ok (tt, w') →
  (∀ r, c = RegisterUser r → msg_sender env ≠ a) →
  users (registry w) !! a = None → users (registry w') !! a = None.
Proof.
  intros [_ _ Hd _ HM _] H Hreg Ha.
  destruct c;
    try (by eapply exec_token_frame in H as (_&_&->&_));
    cbn [exec] in H.
  - apply registerUser_Ok in H as [_ ->]. unfold registerUser_post; fields.
    rewrite lookup_insert_ne; [done|]. by eapply Hreg.
  - apply assignRole_Ok in H as [(_ & Hact & _) ->].
    unfold assignRole_post; fields.
    rewrite lookup_insert_ne; [done|]. intros ->.
    by rewrite (user_at_None _ _ Ha) in Hact.
  - minv. match goal with H : createMatch _ _ _ _ = _ |- _ =>
      apply createMatch_Ok in H as (_ & _ & ->) end. done.
  - apply verifyMatch_Ok in H as [((_ & _ & Hi & _) & _) ->].
    unfold verifyMatch_post; fields.
    destruct (proj2 (Hd _matchId) Hi) as [m Hm].
    rewrite (match_at_Some _ _ _ Hm).
    destruct (HM _ _ Hm) as (_&_&_&_&[u Hu]&_).
    rewrite lookup_insert_ne; [done|]. intros Heq. rewrite Heq in Hu. congruence.
Qed.

Lemma never_registered_None w0 tr w a :
  initial w0 → steps w0 tr w →
  (∀ env r, (env, RegisterUser r) ∈ tr → msg_sender env ≠ a) →
  users (registry w) !! a = None.
Proof.
  intros (self & env0 & ta & t & _ & ->) Hs.
  induction Hs as [|tr w env c w' Hs IH Hv _ Hx]; intros Hreg; [done|].
  eapply exec_users_None; [|done| |].
  - eapply steps_Inv; [apply Inv_deployed|done].
  - intros r ->. apply (Hreg env r). left.
  - apply IH. intros env' r Hin. apply (Hreg env' r). by right.
Qed.


(** ** The two counters *)

Lemma exec_counters env c w w' :
  exec env c w = Ok (tt, w') →
  match c with
  | CreateMatch _ _ =>
      matchCounter (registry w') = matchCounter (registry w) + 1 ∧
      totalMatches (registry w') = totalMatches (registry w) + 1
  | _ =>
      matchCounter (registry w') = matchCounter (registry w) ∧
      totalMatches (registry w') = totalMatches (registry w)
  end.
Proof.
  intros H.
  destruct c;
    try (by eapply exec_token_frame in H as (_&_&_&_&_&->&->&_));
    cbn [exec] in H.
  - by apply registerUser_Ok in H as [_ ->].
  - by apply assignRole_Ok in H as [_ ->].
  - minv. match goal with H : createMatch _ _ _ _ = _ |- _ =>
      apply createMatch_Ok in H as (_ & _ & ->) end. done.
  - by apply verifyMatch_Ok in H as [_ ->].
Qed.


(** ** Ledger balances *)

Lemma sum_balances_insert (bs : gmap N N) a x :
  sum_balances (<[a := x]> bs) + default 0 (bs !! a) = x + sum_balances bs.
Proof.
  unfold sum_balances. destruct (bs !! a) as [y|] eqn:Ha; cbn [default].
  - rewrite (map_fold_delete_L _ _ a y bs); [|intros; lia|done].
    rewrite <- insert_delete_eq.
    rewrite map_fold_insert_L; [cbv beta; unfold id; lia|intros; lia|
                                apply lookup_delete_eq].
  - rewrite map_fold_insert_L; [cbv beta; lia|intros; lia|done].
Qed.

Lemma transfer_post_balances from to amount t :
  from ≠ to →
  amount <= Token.balance t from →
  Token.balance (transfer_post from to amount t) to = Token.balance t to + amount ∧
  Token.balance (transfer_post from to amount t) from = Token.balance t from - amount ∧
  (∀ b, b ≠ from → b ≠ to →
     Token.balance (transfer_post from to amount t) b = Token.balance t b) ∧
  Token.totalSupply (transfer_post from to amount t) = Token.totalSupply t ∧
  sum_balances (Token.balances (transfer_post from to amount t)) =
    sum_balances (Token.balances t).
Proof.
  intros Hne Hle. unfold transfer_post, credit, debit, Token.balance in *.
  cbn [Token.balances Token.totalSupply]. split_and!.
  - rewrite lookup_insert_eq. cbn. by rewrite lookup_insert_ne.
  - rewrite lookup_insert_ne, lookup_insert_eq by done. done.
  - intros b ? ?. by rewrite !lookup_insert_ne.
  - done.
  - pose proof (sum_balances_insert (Token.balances t) from
                  (default 0 (Token.balances t !! from) - amount)) as H1.
    pose proof (sum_balances_insert
                  (<[from := default 0 (Token.balances t !! from) - amount]>
                     (Token.balances t)) to
                  (default 0
                     (<[from := default 0 (Token.balances t !! from) - amount]>
                        (Token.balances t) !! to) + amount)) as H2.
    lia.
Qed.


(** ** The life of a match record *)

Lemma match_at_insert ms i j m :
  match_at (<[i := m]> ms) j = if decide (i = j) then m else match_at ms j.
Proof.
  case_decide as H; [subst; apply match_at_insert_eq|by apply match_at_insert_ne].
Qed.

(** A successful transaction other than [verifyMatch(i)] leaves the record
    of an allocated match [i] as it was. *)
Lemma exec_match_unchanged env c w w' i :
  Inv w →
  i < matchCounter (registry w) →
  c ≠ VerifyMatch i →
  exec env c w = Ok (tt, w') →
  match_at (matches (registry w')) i = match_at (matches (registry w)) i.
Proof.
  intros HI Hi Hc H.
  destruct c;
    try (by eapply exec_token_frame in H as (_&_&_&->&_));
    cbn [exec] in H.
  - by apply registerUser_Ok in H as [_ ->].
  - by apply assignRole_Ok in H as [_ ->].
  - minv. match goal with H : createMatch _ _ _ _ = _ |- _ =>
      apply createMatch_Ok in H as (_ & _ & ->) end.
    unfold createMatch_post; fields. rewrite match_at_insert_ne; [done|lia].
  - apply verifyMatch_Ok in H as [_ ->]. unfold verifyMatch_post; fields.
    rewrite match_at_insert_ne; [done|congruence].
Qed.

Lemma verifyMatch_verified env _matchId w :
  entered (registry w) = false →
  msg_sender env ∈ verifiers (registry w) →
  _matchId < matchCounter (registry w) →
  Match.isVerified (match_at (matches (registry w)) _matchId) = true →
  verifyMatch env _matchId w = Revert AlreadyVerified.
Proof.
  intros He Hv Hi Hver. unfold verifyMatch. apply nonReentrant_Revert; [done|].
  apply bind_Revert. unfold verifyMatch_mark.
  eapply bind_Ok_intro; [mrun|]; cbv beta. fields.
  eapply bind_Ok_intro; [apply require_true; by bprop|]; cbv beta.
  eapply bind_Ok_intro; [mrun|]; cbv beta. fields.
  eapply bind_Ok_intro; [apply require_true; by bprop|]; cbv beta.
  eapply bind_Ok_intro; [mrun|]; cbv beta. fields.
  apply bind_Revert, require_false. by rewrite Hver.
Qed.

Lemma steps_verified_forever w tr w' i :
  Inv w →
  i < matchCounter (registry w) →
  Match.isVerified (match_at (matches (registry w)) i) = true →
  steps w tr w' →
  i < matchCounter (registry w') ∧
  match_at (matches (registry w')) i = match_at (matches (registry w)) i.
Proof.
  intros HI Hi Hver. induction 1 as [|tr w1 env c w2 Hs [Hi1 IH] Hv _ Hx]; [done|].
  pose proof (steps_Inv _ _ _ HI Hs) as HI1. split.
  - pose proof (exec_counters _ _ _ _ Hx) as Hc. destruct c; lia.
  - rewrite <- IH. eapply exec_match_unchanged; [done..| |done].
    intros ->. cbn [exec] in Hx.
    apply verifyMatch_Ok in Hx as [((_ & _ & _ & Hnv & _) & _) _].
    congruence.
Qed.


(** ** Match ids *)

Lemma steps_created w0 tr w :
  initial w0 → steps w0 tr w →
  matchCounter (registry w) = N.of_nat (created tr).
Proof.
  intros (self & env0 & ta & t & _ & ->).
  induction 1 as [|tr w env c w' Hs IH _ _ Hx]; [done|].
  pose proof (exec_counters _ _ _ _ Hx) as Hc.
  destruct c; cbn [created]; lia.
Qed.

Lemma reachable_step w env c w' :
  reachable w → valid_env (this w) env → valid_call c →
  exec env c w = Ok (tt, w') → reachable w'.
Proof.
  intros (w0 & tr & Hi & Hs) Hv Hc Hx. exists w0, ((env, c) :: tr).
  split; [done|]. by econstructor.
Qed.

Lemma created_le_length tr : (created tr <= length tr)%nat.
Proof.
  induction tr as [|[env c] tr IH]; [done|].
  destruct c; cbn [created length]; lia.
Qed.

(** ** The counter of successful matches *)

Lemma REWARD_pos : 0 < REWARD_AMOUNT <= MAX_UINT256.
Proof. by vm_compute. Qed.

(** A successful transaction verifies at most one match. *)
Lemma exec_successfulMatches env c w w' :
  exec env c w = Ok (tt, w') →
  successfulMatches (registry w') <= successfulMatches (registry w) + 1.
Proof.
  intros H.
  destruct c;
    try (eapply exec_token_frame in H as (_&_&_&_&_&_&_&->); [lia|done]);
    cbn [exec] in H.
  - apply registerUser_Ok in H as [_ ->]. unfold registerUser_post; fields. lia.
  - apply assignRole_Ok in H as [_ ->]. unfold assignRole_post; fields. lia.
  - minv. match goal with H : createMatch _ _ _ _ = _ |- _ =>
      apply createMatch_Ok in H as (_ & _ & ->) end.
    unfold createMatch_post; fields. lia.
  - apply verifyMatch_Ok in H as [_ ->]. unfold verifyMatch_post; fields. lia.
Qed.

Lemma steps_successfulMatches w0 tr w :
  initial w0 → steps w0 tr w →
  successfulMatches (registry w) <= N.of_nat (length tr).
Proof.
  intros (self & env0 & ta & t & _ & ->).
  induction 1 as [|tr w env c w' Hs IH _ _ Hx]; [done|].
  pose proof (exec_successfulMatches _ _ _ _ Hx). cbn [length]. lia.
Qed.

Lemma getProtocolStats_overflow w :
  0 < totalMatches (registry w) →
  MAX_UINT256 < successfulMatches (registry w) * 100 →
  getProtocolStats w = Panic ARITHMETIC_PANIC.
Proof.
  intros Ht Ho. unfold getProtocolStats.
  eapply bind_Ok_intro; [mrun|]; cbv beta.
  apply bind_Panic. fields.
  destruct (N.ltb_spec 0 (totalMatches (registry w))); [|lia].
  eapply bind_Ok_intro; [mrun|]; cbv beta.
  by apply bind_Panic, checked_mul_overflow.
Qed.

(** [getProtocolStats] in any state: the rate is 0 without a match,
    the rounded-down percentage when the product fits in a [uint256], and
    the call is aborted by the checked multiplication otherwise. *)
Lemma getProtocolStats_run w :
  let total := totalMatches (registry w) in
  let successful := successfulMatches (registry w) in
  (total = 0 → getProtocolStats w = Ok ((total, successful, 0), w)) ∧
  (0 < total → successful * 100 <= MAX_UINT256 →
   getProtocolStats w = Ok ((total, successful, successful * 100 / total), w)) ∧
  (0 < total → MAX_UINT256 < successful * 100 →
   getProtocolStats w = Panic ARITHMETIC_PANIC).
Proof.
  intros total successful. split_and!.
  - intros Ht. unfold getProtocolStats.
    eapply bind_Ok_intro; [mrun|]; cbv beta. fold total. rewrite Ht.
    cbn [N.ltb N.compare]. eapply bind_Ok_intro; [mrun|]; cbv beta.
    eapply bind_Ok_intro; [mrun|]; cbv beta. fold total. rewrite Ht.
    eapply bind_Ok_intro; [mrun|]; cbv beta. done.
  - intros Ht Hf. unfold getProtocolStats.
    eapply bind_Ok_intro; [mrun|]; cbv beta. fold total.
    destruct (N.ltb_spec 0 total); [|lia].
    eapply bind_Ok_intro.
    { eapply bind_Ok_intro; [mrun|]; cbv beta.
      eapply bind_Ok_intro; [by apply checked_mul_ok|]; cbv beta.
      eapply bind_Ok_intro; [mrun|]; cbv beta. reflexivity. }
    cbv beta. eapply bind_Ok_intro; [mrun|]; cbv beta.
    eapply bind_Ok_intro; [mrun|]; cbv beta. done.
  - apply getProtocolStats_overflow.
Qed.

(** * The properties of the specification *)

(** C1. In every state, for every match id that exists (allocated, with a
    creation time) and is unverified: when the registry's ledger balance is
    below the match's reward amount, [verifyMatch] fails and the transaction
    leaves the state as it was: the match is still unverified with the same
    completion time, and the verified-matches counter and the matchmaker's
    cumulative rewards and match count are unchanged. The writes did happen
    before the failure: for a caller in the verifier set, the call reaches
    [_distributeReward] in a state where the match is marked verified and
    the counter is incremented, and is aborted there for insufficient
    balance. *)
Theorem verifyMatch_insufficient_balance env _matchId w :
  let s := registry w in
  let m := match_at (matches s) _matchId in
  let marked := verifyMatch_marked env _matchId w in
  let w' := (transact (verifyMatch env _matchId) w).1 in
  _matchId < matchCounter s →
  Match.createdAt m ≠ 0 →
  Match.isVerified m = false →
  Token.balance (token w) (this w) < Match.rewardAmount m →
  (failed (transact (verifyMatch env _matchId) w).2 ∧ w' = w) ∧
  (Match.isVerified (match_at (matches (registry w')) _matchId) = false ∧
   Match.completedAt (match_at (matches (registry w')) _matchId) =
     Match.completedAt m ∧
   successfulMatches (registry w') = successfulMatches s ∧
   User.totalRewardsEarned (user_at (users (registry w')) (Match.matchmaker m)) =
     User.totalRewardsEarned (user_at (users s) (Match.matchmaker m)) ∧
   User.successfulMatches (user_at (users (registry w')) (Match.matchmaker m)) =
     User.successfulMatches (user_at (users s) (Match.matchmaker m))) ∧
  (entered s = false → msg_sender env ∈ verifiers s →
   successfulMatches s + 1 <= MAX_UINT256 →
   verifyMatch_mark env _matchId
     (mkWorld (this w) (set_entered true s) (token w)) = Ok (tt, marked) ∧
   Match.isVerified (match_at (matches (registry marked)) _matchId) = true ∧
   Match.completedAt (match_at (matches (registry marked)) _matchId) =
     block_timestamp env ∧
   successfulMatches (registry marked) = successfulMatches s + 1 ∧
   _distributeReward env _matchId marked = Revert InsufficientBalance ∧
   transact (verifyMatch env _matchId) w = (w, Revert InsufficientBalance)).
Proof.
  intros s m marked w' Hi Hc Hv Hb.
  assert ((transact (verifyMatch env _matchId) w).1 = w ∧
          failed (transact (verifyMatch env _matchId) w).2) as [Hw Hf].
  { apply transact_not_Ok. intros [] w1 [(_ & _ & Hbal & _) _]%verifyMatch_Ok.
    fold s m in Hbal. lia. }
  subst w'. rewrite Hw. split_and!; try done.
  intros He Hs Hmax.
  assert (verifyMatch_mark env _matchId
            (mkWorld (this w) (set_entered true s) (token w)) = Ok (tt, marked))
    as Hmark.
  { apply verifyMatch_mark_Ok; [done|]. split; [|done]. fields. done. }
  assert (_distributeReward env _matchId marked = Revert InsufficientBalance)
    as Hd.
  { apply distributeReward_insufficient. subst marked.
    unfold verifyMatch_marked. fields. norm. done. }
  split_and!; try done.
  - subst marked. unfold verifyMatch_marked. fields. by norm.
  - subst marked. unfold verifyMatch_marked. fields. by norm.
  - apply transact_Revert, nonReentrant_Revert; [done|].
    eapply bind_Ok_intro; [exact Hmark|]. exact Hd.
Qed.

(** In the scenario, before the registry is funded: Bob's [verifyMatch] of
    match 0 is aborted for insufficient balance and changes nothing. *)
Lemma verifyMatch_insufficient_balance_witness :
  Token.balance (token w_created) (this w_created) <
    Match.rewardAmount (match_at (matches (registry w_created)) 0) ∧
  transact (verifyMatch bob 0) w_created = (w_created, Revert InsufficientBalance).
Proof.
  split; [by vm_compute|].
  refine (proj2 (proj2 (proj2 (proj2 (proj2
    (proj2 (proj2 (verifyMatch_insufficient_balance bob 0 w_created _ _ _ _))
       _ _ _)))))); by vm_compute.
Defined.

(** C2, as amended. In every reachable state and for every created match:
    the record is created unverified with completedAt = 0; it is unverified
    with completedAt = 0, or verified with completedAt non-zero; a
    successful transaction other than [verifyMatch] on its id leaves the
    record as it was, and a successful [verifyMatch] on its id finds it
    unverified and leaves it verified with the block's (non-zero) timestamp
    as completedAt; so once verified it stays verified with the same
    completedAt. Every [verifyMatch] on the id of a verified match fails
    and leaves the whole state (balances and counters included) as it was:
    with AlreadyVerified when the caller is in the verifier set, and with
    the verifier-only rejection otherwise (the caller is checked first). *)
Theorem match_verified_exactly_once w i :
  let m := match_at (matches (registry w)) i in
  reachable w →
  i < matchCounter (registry w) →
  (if Match.isVerified m then Match.completedAt m ≠ 0
   else Match.completedAt m = 0) ∧
  (∀ env _peer1 _peer2 j w',
     createMatch env _peer1 _peer2 w = Ok (j, w') →
     Match.isVerified (match_at (matches (registry w')) j) = false ∧
     Match.completedAt (match_at (matches (registry w')) j) = 0) ∧
  (∀ env c w',
     valid_env (this w) env →
     exec env c w = Ok (tt, w') →
     let m' := match_at (matches (registry w')) i in
     (c = VerifyMatch i →
      Match.isVerified m = false ∧ Match.isVerified m' = true ∧
      Match.completedAt m' = block_timestamp env ∧
      Match.completedAt m' ≠ 0) ∧
     (c ≠ VerifyMatch i → m' = m)) ∧
  (Match.isVerified m = true →
   ∀ tr w', steps w tr w' → match_at (matches (registry w')) i = m) ∧
  (Match.isVerified m = true →
   ∀ env,
     transact (verifyMatch env i) w =
       (w, Revert (if bool_decide (msg_sender env ∈ verifiers (registry w))
                   then AlreadyVerified else NotVerifier))).
Proof.
  intros m Hr Hi. pose proof (reachable_Inv _ Hr) as HI.
  destruct HI as [He _ Hd _ HM _].
  destruct (proj2 (Hd i) Hi) as [m0 Hm].
  assert (m = m0) as -> by (by apply match_at_Some).
  destruct (HM _ _ Hm) as (_&_&_&_&_&_&_&_&_&Hcompleted).
  split_and!.
  - done.
  - intros env p1 p2 j w' (_ & -> & ->)%createMatch_Ok.
    unfold createMatch_post; fields. by rewrite match_at_insert_eq.
  - intros env c w' Hv Hx m'.
    assert (c = VerifyMatch i →
            Match.isVerified m0 = false ∧ Match.isVerified m' = true ∧
            Match.completedAt m' = block_timestamp env ∧
            Match.completedAt m' ≠ 0) as Hverify.
    { intros ->. subst m'. cbn [exec] in Hx.
      apply verifyMatch_Ok in Hx as [((_ & _ & _ & Hnv & _) & _) ->].
      unfold verifyMatch_post; fields. rewrite match_at_insert_eq; fields.
      rewrite (match_at_Some _ _ _ Hm) in Hnv.
      destruct Hv as (_ & _ & _ & Hts & _). done. }
    assert (c ≠ VerifyMatch i → m' = m0) as Hother.
    { intros Hc. subst m'. rewrite <- (match_at_Some _ _ _ Hm).
      by eapply exec_match_unchanged; [apply reachable_Inv| | |]. }
    by split.
  - intros Hver tr w' Hs. rewrite <- (match_at_Some _ _ _ Hm).
    eapply steps_verified_forever; [by apply reachable_Inv|done| |done].
    by rewrite (match_at_Some _ _ _ Hm).
  - intros Hver env. apply transact_Revert. case_bool_decide.
    + apply verifyMatch_verified; try done. by rewrite (match_at_Some _ _ _ Hm).
    + by apply verifyMatch_not_verifier.
Qed.

(** In the scenario, after Bob verified match 0: the match is verified with
    a completion time, and a second [verifyMatch] fails, by Bob with
    AlreadyVerified and by Carol (not a verifier) for the caller. *)
Lemma match_verified_exactly_once_witness :
  Match.isVerified (match_at (matches (registry w_verified)) 0) = true ∧
  Match.completedAt (match_at (matches (registry w_verified)) 0) ≠ 0 ∧
  transact (verifyMatch bob 0) w_verified = (w_verified, Revert AlreadyVerified) ∧
  transact (verifyMatch carol 0) w_verified = (w_verified, Revert NotVerifier).
Proof.
  assert (0 < matchCounter (registry w_verified)) as Hi by (by vm_compute).
  destruct (match_verified_exactly_once w_verified 0 w_verified_reachable Hi)
    as (Hc & _ & _ & _ & Hagain).
  assert (Match.isVerified (match_at (matches (registry w_verified)) 0) = true)
    as Hver by (by vm_compute).
  rewrite Hver in Hc.
  split_and!; [done|done| |].
  - by rewrite (Hagain Hver bob).
  - by rewrite (Hagain Hver carol).
Defined.

(** C2 as stated fails: a [verifyMatch] on a verified match by a caller
    outside the verifier set is rejected for the caller, not with
    AlreadyVerified. *)
Lemma verifyMatch_again_by_non_verifier_counterexample :
  reachable w_verified ∧
  0 < matchCounter (registry w_verified) ∧
  Match.isVerified (match_at (matches (registry w_verified)) 0) = true ∧
  transact (verifyMatch carol 0) w_verified = (w_verified, Revert NotVerifier) ∧
  Revert (A:=unit) NotVerifier ≠ Revert AlreadyVerified.
Proof. split; [apply w_verified_reachable|]. split_and!; by vm_compute. Qed.

(** C3. In every reachable state, a successful [verifyMatch] moves exactly
    the fixed reward of 100 * 10^18 smallest units and conserves the
    ledger's supply: the matchmaker's ledger balance grows by that amount,
    the registry's ledger balance (which covered it) shrinks by the same
    amount, no other balance changes, the total supply and the sum of all
    balances are unchanged, and the matchmaker's recorded totalRewardsEarned
    grows by the same amount. *)
Theorem verifyMatch_moves_the_reward env _matchId w w' :
  let a := Match.matchmaker (match_at (matches (registry w)) _matchId) in
  reachable w →
  verifyMatch env _matchId w = Ok (tt, w') →
  REWARD_AMOUNT = 100 * 10 ^ 18 ∧
  Match.rewardAmount (match_at (matches (registry w)) _matchId) = REWARD_AMOUNT ∧
  a ≠ this w ∧
  Token.balance (token w') a = Token.balance (token w) a + REWARD_AMOUNT ∧
  REWARD_AMOUNT <= Token.balance (token w) (this w) ∧
  Token.balance (token w') (this w) =
    Token.balance (token w) (this w) - REWARD_AMOUNT ∧
  (∀ b, b ≠ a → b ≠ this w →
     Token.balance (token w') b = Token.balance (token w) b) ∧
  Token.totalSupply (token w') = Token.totalSupply (token w) ∧
  sum_balances (Token.balances (token w')) =
    sum_balances (Token.balances (token w)) ∧
  User.totalRewardsEarned (user_at (users (registry w')) a) =
    User.totalRewardsEarned (user_at (users (registry w)) a) + REWARD_AMOUNT.
Proof.
  intros a [_ _ Hd _ HM _]%reachable_Inv.
  intros [((_ & _ & Hi & _) & _ & Hbal & _) ->]%verifyMatch_Ok.
  destruct (proj2 (Hd _matchId) Hi) as [m Hm].
  subst a. rewrite (match_at_Some _ _ _ Hm) in *.
  destruct (HM _ _ Hm) as (_ & HR & Hthis & _).
  rewrite HR in *.
  destruct (transfer_post_balances (this w) (Match.matchmaker m) REWARD_AMOUNT
              (token w)) as (H1 & H2 & H3 & H4 & H5); [done..|].
  unfold verifyMatch_post. rewrite (match_at_Some _ _ _ Hm), HR. fields.
  split_and!; try done.
  - intros b ? ?. by apply H3.
  - by norm.
Qed.

(** In the scenario: Bob's [verifyMatch] moves the registry's 100 * 10^18
    units to Alice. *)
Lemma verifyMatch_moves_the_reward_witness :
  Token.balance (token w_verified) ALICE = 100 * 10 ^ 18 ∧
  Token.balance (token w_verified) REGISTRY = 0 ∧
  User.totalRewardsEarned (user_at (users (registry w_verified)) ALICE) =
    100 * 10 ^ 18.
Proof.
  assert (verifyMatch bob 0 w_funded = Ok (tt, w_verified)) as Hv
    by (by vm_compute).
  destruct (verifyMatch_moves_the_reward bob 0 w_funded w_verified
              w_funded_reachable Hv)
    as (HR & _ & _ & Ha & _ & Hr & _ & _ & _ & Hu).
  split_and!.
  - etrans; [exact Ha|]. by vm_compute.
  - etrans; [exact Hr|]. by vm_compute.
  - etrans; [exact Hu|]. by vm_compute.
Defined.

(** C4. In every state reached from the deployment by a history of at most
    (2^256 - 1) / 100 successful transactions (about 1.16 * 10^75, more than
    any history of the deployed contract can hold), [getProtocolStats]
    returns the current values of the two counters together with a
    successRate that is 0 when totalMatches is 0 and
    floor(successfulMatches * 100 / totalMatches) when totalMatches > 0, and
    it has no side effects. The bound is what keeps the checked product
    successfulMatches * 100 within a [uint256]: a transaction verifies at
    most one match ([getProtocolStats_run] has the call in any state). *)
Theorem getProtocolStats_correct w0 tr w :
  let total := totalMatches (registry w) in
  let successful := successfulMatches (registry w) in
  initial w0 → steps w0 tr w →
  N.of_nat (length tr) * 100 <= MAX_UINT256 →
  (total = 0 → getProtocolStats w = Ok ((total, successful, 0), w)) ∧
  (0 < total →
   getProtocolStats w = Ok ((total, successful, successful * 100 / total), w)) ∧
  (transact getProtocolStats w).1 = w ∧
  (transact getProtocolStats w).2 =
    Ok (total, successful,
        if total =? 0 then 0 else successful * 100 / total).
Proof.
  intros total successful Hi Hs Hlen.
  pose proof (steps_successfulMatches _ _ _ Hi Hs) as Hle.
  assert (successful * 100 <= MAX_UINT256) as Hfit by (unfold successful; lia).
  destruct (getProtocolStats_run w) as (H0 & H1 & _).
  fold total successful in H0, H1.
  split_and!; [done|auto| |].
  - destruct (N.eq_dec total 0) as [Ht|Ht].
    + unfold transact. by rewrite H0.
    + unfold transact. rewrite H1; [done|lia|done].
  - destruct (N.eqb_spec total 0) as [Ht|Ht].
    + unfold transact. by rewrite H0.
    + unfold transact. rewrite H1; [done|lia|done].
Qed.

(** In the scenario, after its six transactions: one match of one is
    verified, and the rate is 100. *)
Lemma getProtocolStats_correct_witness :
  getProtocolStats w_verified = Ok ((1, 1, 100), w_verified).
Proof.
  assert (initial w_deployed) as Hi.
  { exists REGISTRY, deployer, TOKEN, token_deployed.
    split; [by apply valid_envb_spec|done]. }
  assert (steps w_deployed (rev scenario ++ []) w_verified) as Hs.
  { apply (run_steps w_deployed [] _ w_deployed); [constructor|by vm_compute]. }
  assert (N.of_nat (length (rev scenario ++ [])) * 100 <= MAX_UINT256) as Hlen
    by (by vm_compute).
  destruct (getProtocolStats_correct _ _ _ Hi Hs Hlen) as (_ & H & _).
  rewrite H; by vm_compute.
Defined.

(** C5. In every state reached from the deployment by a history of fewer
    than 2^256 - 1 successful transactions (more than any history of the
    deployed contract can hold), [createMatch(peer1, peer2)] succeeds if
    and only if the caller is an active registered user with role
    MATCHMAKER, both peers are non-null, and peer1 differs from peer2. On
    success it returns the number of [createMatch] calls that succeeded
    before it (so the ids are 0, 1, 2, ... in arrival order), an id that was
    not allocated before; it records that id, the caller as matchmaker, the
    peers, the fixed reward amount, verified = false, the block's timestamp
    and completedAt = 0; and it increments the match counter and the
    total-matches counter by exactly one. The bound is what keeps the
    checked increment of the counter within a [uint256]: the counter is the
    number of [createMatch] transactions of the history. *)
Theorem createMatch_correct w0 tr w env _peer1 _peer2 :
  let u := user_at (users (registry w)) (msg_sender env) in
  initial w0 → steps w0 tr w →
  N.of_nat (length tr) < MAX_UINT256 →
  ((∃ i w', createMatch env _peer1 _peer2 w = Ok (i, w')) ↔
   (User.isActive u = true ∧ User.role u = MATCHMAKER ∧
    _peer1 ≠ address0 ∧ _peer2 ≠ address0 ∧ _peer1 ≠ _peer2)) ∧
  (∀ i w',
     createMatch env _peer1 _peer2 w = Ok (i, w') →
     i = N.of_nat (created tr) ∧
     i = matchCounter (registry w) ∧
     matches (registry w) !! i = None ∧
     match_at (matches (registry w')) i =
       Match.mk i (msg_sender env) _peer1 _peer2 REWARD_AMOUNT false
                (block_timestamp env) 0 ∧
     matchCounter (registry w') = i + 1 ∧
     totalMatches (registry w') = totalMatches (registry w) + 1).
Proof.
  intros u Hi Hs Hlen.
  assert (Inv w) as [He Hc Hd _ _ _].
  { apply reachable_Inv. by exists w0, tr. }
  assert (matchCounter (registry w) < MAX_UINT256) as Hmax.
  { rewrite (steps_created _ _ _ Hi Hs).
    pose proof (created_le_length tr). lia. }
  split.
  - split.
    + intros (i & w' & Hx).
      apply createMatch_Ok in Hx as ((_ & ? & ? & ? & ? & ? & ? & _) & _).
      split_and!; done.
    + intros (? & ? & ? & ? & ?). eexists _, _. apply createMatch_Ok.
      split; [|done]. unfold createMatch_pre. split_and!; try done; lia.
  - intros i w' (_ & -> & ->)%createMatch_Ok. split_and!.
    + by eapply steps_created.
    + done.
    + apply eq_None_not_Some. rewrite Hd. lia.
    + unfold createMatch_post; fields. by rewrite match_at_insert_eq.
    + done.
    + done.
Qed.

(** In the scenario, after the three registrations: Alice's first
    [createMatch] returns id 0. *)
Lemma createMatch_correct_witness :
  ∃ w', createMatch alice PEER1 PEER2 w_registered = Ok (0, w') ∧
        totalMatches (registry w') = 1.
Proof.
  assert (initial w_deployed) as Hi.
  { exists REGISTRY, deployer, TOKEN, token_deployed.
    split; [by apply valid_envb_spec|done]. }
  assert (steps w_deployed (rev registrations ++ []) w_registered) as Hs.
  { apply (run_steps w_deployed [] _ w_deployed); [constructor|by vm_compute]. }
  assert (N.of_nat (length (rev registrations ++ [])) < MAX_UINT256) as Hlen
    by (by vm_compute).
  destruct (createMatch_correct _ _ _ alice PEER1 PEER2 Hi Hs Hlen) as [Hiff Hok].
  destruct (proj2 Hiff) as (i & w' & Hx).
  { vm_compute. split_and!; by try intros [=]. }
  destruct (Hok _ _ Hx) as (Hid & _ & _ & _ & _ & Htot).
  exists w'. split.
  - rewrite Hx. do 2 f_equal. rewrite Hid. by vm_compute.
  - rewrite Htot. by vm_compute.
Defined.

(** C6, as amended. [registerUser(role)] fails, leaving the state as it
    was, if the role is NONE (with InvalidRole) or the caller has an active
    record; a registration by an identity that registered before always
    fails and leaves the state as it was: with AlreadyRegistered when the
    requested role is not NONE, and with InvalidRole when it is NONE (the
    role is checked first). In every other case it succeeds. On success the
    caller's record has the requested role, zero rewards, zero successful
    matches and is active, and the caller is added to the verifier set when
    the role is VERIFIER (the set is unchanged otherwise). *)
Theorem registerUser_correct env _role w :
  let a := msg_sender env in
  (_role = NONE →
   transact (registerUser env _role) w = (w, Revert InvalidRole)) ∧
  (User.isActive (user_at (users (registry w)) a) = true →
   transact (registerUser env _role) w = (w, Revert (reregistration _role))) ∧
  (_role ≠ NONE → User.isActive (user_at (users (registry w)) a) = false →
   ∃ w', registerUser env _role w = Ok (tt, w')) ∧
  (∀ w',
     registerUser env _role w = Ok (tt, w') →
     user_at (users (registry w')) a = User.mk a _role 0 0 true ∧
     verifiers (registry w') =
       (if bool_decide (_role = VERIFIER)
        then {[a]} ∪ verifiers (registry w) else verifiers (registry w)) ∧
     (_role = VERIFIER → a ∈ verifiers (registry w')) ∧
     ∀ tr w'' env2 role2,
       steps w' tr w'' → msg_sender env2 = a →
       transact (registerUser env2 role2) w'' =
         (w'', Revert (reregistration role2))).
Proof.
  intros a. split_and!.
  - intros ->. apply transact_Revert, registerUser_NONE.
  - apply registerUser_again.
  - intros Hr Ha. eexists. apply registerUser_Ok. by split.
  - intros w' [_ ->]%registerUser_Ok.
    assert (user_at (users (registry (registerUser_post env _role w))) a =
            User.mk a _role 0 0 true) as Hu.
    { unfold registerUser_post; fields. by norm. }
    split_and!; [done|done| |].
    + intros ->. unfold registerUser_post; fields. set_solver.
    + intros tr w'' env2 role2 Hs Hsender. apply registerUser_again.
      rewrite Hsender. eapply steps_active; [done|]. by rewrite Hu.
Qed.

(** In the scenario: Bob's registration as VERIFIER, and his second
    registration, refused. *)
Lemma registerUser_correct_witness :
  user_at (users (registry w_registered)) BOB = User.mk BOB VERIFIER 0 0 true ∧
  BOB ∈ verifiers (registry w_registered) ∧
  transact (registerUser bob ADMIN) w_registered =
    (w_registered, Revert AlreadyRegistered).
Proof.
  destruct (registerUser_correct bob ADMIN w_registered) as (_ & Hagain & _).
  split_and!; [by vm_compute..|].
  rewrite Hagain; by vm_compute.
Defined.

(** C6 as stated fails: a second registration that asks for the role NONE
    is rejected with InvalidRole, not AlreadyRegistered. *)
Lemma second_registration_NONE_counterexample :
  reachable w_registered ∧
  User.isActive (user_at (users (registry w_registered)) (msg_sender alice)) = true ∧
  transact (registerUser alice NONE) w_registered =
    (w_registered, Revert InvalidRole) ∧
  Revert (A:=unit) InvalidRole ≠ Revert AlreadyRegistered.
Proof. split; [apply w_registered_reachable|]. split_and!; by vm_compute. Qed.

(** C7. Membership in the verifier set is monotone: an address in the set
    before a transaction ([registerUser], [assignRole], [createMatch],
    [verifyMatch], [fundRewards], [withdrawTokens], or any other entry
    point; successful or not) is in the set after it. In particular, when
    [assignRole] gives a member of the set a role other than VERIFIER, the
    stored role changes and the membership stays, and with it the right to
    verify: a [verifyMatch] by that address succeeds whenever everything
    but the caller's authorisation allows it. *)
Theorem verifier_set_monotone a env c w :
  a ∈ verifiers (registry w) →
  a ∈ verifiers (registry (transact (exec env c) w).1) ∧
  (∀ _role w',
     _role ≠ VERIFIER →
     assignRole env a _role w = Ok (tt, w') →
     User.role (user_at (users (registry w')) a) = _role ∧
     a ∈ verifiers (registry w') ∧
     ∀ env' _matchId,
       msg_sender env' = a →
       (msg_sender env' ∈ verifiers (registry w') →
        verifyMatch_pre env' _matchId w') →
       verifyMatch env' _matchId w' = Ok (tt, verifyMatch_post env' _matchId w')).
Proof.
  intros Ha. split.
  - unfold transact. destruct (exec env c w) as [[[] w']| |] eqn:Hx; [|done..].
    by apply (exec_verifiers _ _ _ _ Hx).
  - intros _role w' Hr [_ ->]%assignRole_Ok.
    assert (a ∈ verifiers (registry (assignRole_post env a _role w))) as Ha'.
    { unfold assignRole_post; fields. case_bool_decide; set_solver. }
    split_and!; [|done|].
    + unfold assignRole_post; fields. by norm.
    + intros env' i <- Hpre. apply verifyMatch_Ok. auto.
Qed.

(** In the scenario: the owner makes Bob, a verifier, a MATCHMAKER; Bob is
    still in the verifier set and his [verifyMatch] of match 0 succeeds. *)
Lemma verifier_set_monotone_witness :
  let w' := (transact (exec deployer (AssignRole BOB MATCHMAKER)) w_funded).1 in
  BOB ∈ verifiers (registry w_funded) ∧
  BOB ∈ verifiers (registry w') ∧
  User.role (user_at (users (registry w')) BOB) = MATCHMAKER ∧
  verifyMatch bob 0 w' = Ok (tt, verifyMatch_post bob 0 w').
Proof.
  intros w'.
  assert (BOB ∈ verifiers (registry w_funded)) as Hb by (by vm_compute).
  destruct (verifier_set_monotone BOB deployer (AssignRole BOB MATCHMAKER)
              w_funded Hb) as [Hm Hassign].
  destruct (Hassign MATCHMAKER w') as (Hr & Hv & Hverify);
    [done|by vm_compute|].
  split_and!; [done..|].
  apply Hverify; [done|]. intros _. vm_compute. split_and!; by try intros [=].
Defined.

(** C8. Reads of unknown identifiers are asymmetric. In every reachable
    state, [getUserInfo] of an address that never registered returns the
    zero-valued User record (zero address, role NONE, zero counters,
    inactive) and does not fail, while [getMatchInfo] of an id that was never
    allocated (at or above the match counter) fails with UnknownMatch. No
    read changes the state. *)
Theorem reads_of_unknown_identifiers w0 tr w :
  initial w0 → steps w0 tr w →
  (∀ a,
     (∀ env r, (env, RegisterUser r) ∈ tr → msg_sender env ≠ a) →
     getUserInfo a w = Ok (User.mk address0 NONE 0 0 false, w)) ∧
  (∀ i,
     matchCounter (registry w) <= i →
     getMatchInfo i w = Revert UnknownMatch) ∧
  (∀ a, (transact (getUserInfo a) w).1 = w) ∧
  (∀ i, (transact (getMatchInfo i) w).1 = w).
Proof.
  intros Hi Hs. split_and!.
  - intros a Ha. unfold getUserInfo, read, gets.
    by rewrite (user_at_None _ _ (never_registered_None _ _ _ _ Hi Hs Ha)).
  - intros i Hge. unfold getMatchInfo.
    eapply bind_Ok_intro; [mrun|]; cbv beta.
    apply bind_Revert, require_false. by bprop.
  - done.
  - intros i. unfold transact.
    destruct (getMatchInfo i w) as [[m w']| |] eqn:H; [|done..].
    unfold getMatchInfo in H. by minv.
Qed.

(** In the scenario: the first peer never registered, and match id 1 was
    never allocated. *)
Lemma reads_of_unknown_identifiers_witness :
  getUserInfo PEER1 w_created = Ok (User.mk address0 NONE 0 0 false, w_created) ∧
  getMatchInfo 1 w_created = Revert UnknownMatch.
Proof.
  assert (initial w_deployed) as Hi.
  { exists REGISTRY, deployer, TOKEN, token_deployed.
    split; [by apply valid_envb_spec|done]. }
  assert (steps w_deployed
            (rev (registrations ++ [(alice, CreateMatch PEER1 PEER2)]) ++ [])
            w_created) as Hs.
  { apply (run_steps w_deployed [] _ w_deployed); [constructor|by vm_compute]. }
  destruct (reads_of_unknown_identifiers _ _ _ Hi Hs) as (Hu & Hm & _).
  split.
  - apply Hu. intros env r Hin. unfold registrations in Hin.
    cbn [rev app] in Hin. set_unfold in Hin.
    destruct_or!; simplify_eq; by vm_compute.
  - apply Hm. by vm_compute.
Defined.

(** C9. In every reachable state the match id counter equals the
    total-matches counter, and both equal the number of allocated match
    records (the records are those of the ids below the counter). Both are 0
    at deployment, and a successful transaction increments both by one when
    it is a [createMatch] and changes neither otherwise. *)
Theorem match_counter_is_total_matches w :
  reachable w →
  matchCounter (registry w) = totalMatches (registry w) ∧
  N.of_nat (size (matches (registry w))) = totalMatches (registry w) ∧
  (∀ i, is_Some (matches (registry w) !! i) ↔ i < totalMatches (registry w)) ∧
  (∀ self env _tokenAddress t,
     matchCounter (registry (deployed self env _tokenAddress t)) = 0 ∧
     totalMatches (registry (deployed self env _tokenAddress t)) = 0) ∧
  (∀ env c w',
     exec env c w = Ok (tt, w') →
     match c with
     | CreateMatch _ _ =>
         matchCounter (registry w') = matchCounter (registry w) + 1 ∧
         totalMatches (registry w') = totalMatches (registry w) + 1
     | _ =>
         matchCounter (registry w') = matchCounter (registry w) ∧
         totalMatches (registry w') = totalMatches (registry w)
     end).
Proof.
  intros [_ Hc Hd Hs _ _]%reachable_Inv. split_and!.
  - done.
  - by rewrite <- Hc.
  - intros i. by rewrite <- Hc.
  - done.
  - intros env c w'. apply exec_counters.
Qed.

(** In the scenario, after one match was created and verified. *)
Lemma match_counter_is_total_matches_witness :
  matchCounter (registry w_verified) = 1 ∧
  totalMatches (registry w_verified) = 1 ∧
  size (matches (registry w_verified)) = 1%nat.
Proof.
  destruct (match_counter_is_total_matches w_verified w_verified_reachable)
    as (Hc & Hs & _).
  split_and!.
  - rewrite Hc. by vm_compute.
  - by vm_compute.
  - apply Nat2N.inj. rewrite Hs. by vm_compute.
Defined.

(** C10. The ADMIN role confers no operational rights: for a caller whose
    user record has role ADMIN and who is not in the verifier set,
    [createMatch] always fails (the role check admits MATCHMAKER only) and
    [verifyMatch] always fails (the authorisation is membership in the
    verifier set, whatever the stored role), and both leave the state as it
    was. *)
Theorem admin_role_confers_no_rights env w :
  User.role (user_at (users (registry w)) (msg_sender env)) = ADMIN →
  msg_sender env ∉ verifiers (registry w) →
  (∀ _peer1 _peer2,
     ∃ reason,
       transact (createMatch env _peer1 _peer2) w = (w, Revert reason) ∧
       (entered (registry w) = false →
        reason = if User.isActive (user_at (users (registry w)) (msg_sender env))
                 then OnlyMatchmakers else MatchmakerNotRegistered)) ∧
  (∀ _matchId,
     ∃ reason,
       transact (verifyMatch env _matchId) w = (w, Revert reason) ∧
       (entered (registry w) = false → reason = NotVerifier)).
Proof.
  intros Hr Hv. destruct (entered (registry w)) eqn:He.
  - split; intros; exists ReentrantCall;
      (split; [apply transact_Revert; by apply nonReentrant_entered|done]).
  - split; intros; eexists;
      (split; [apply transact_Revert|intros _; reflexivity]).
    + apply createMatch_not_matchmaker; [done|]. by rewrite Hr.
    + by apply verifyMatch_not_verifier.
Qed.

(** In the scenario: Carol, registered as ADMIN, can neither create nor
    verify a match. *)
Lemma admin_role_confers_no_rights_witness :
  User.role (user_at (users (registry w_funded)) CAROL) = ADMIN ∧
  transact (createMatch carol PEER1 PEER2) w_funded = (w_funded, Revert OnlyMatchmakers) ∧
  transact (verifyMatch carol 0) w_funded = (w_funded, Revert NotVerifier).
Proof.
  assert (User.role (user_at (users (registry w_funded)) (msg_sender carol)) = ADMIN)
    as Hr by (by vm_compute).
  assert (msg_sender carol ∉ verifiers (registry w_funded)) as Hv by (by vm_compute).
  destruct (admin_role_confers_no_rights carol w_funded Hr Hv) as [Hc Hm].
  split; [exact Hr|]. split.
  - destruct (Hc PEER1 PEER2) as (reason & -> & Hreason).
    by rewrite Hreason by (by vm_compute).
  - destruct (Hm 0) as (reason & -> & Hreason).
    by rewrite Hreason by (by vm_compute).
Defined.

(** * More on the statistics *)

Lemma sum_over_insert {A} (f : A → N) (m : gmap N A) k x :
  sum_over f (<[k := x]> m) + from_option f 0 (m !! k) = f x + sum_over f m.
Proof.
  unfold sum_over. destruct (m !! k) as [y|] eqn:Hk; cbn [from_option].
  - rewrite (map_fold_delete_L _ _ k y m); [|intros; lia|done].
    rewrite <- insert_delete_eq.
    rewrite map_fold_insert_L; [cbv beta; lia|intros; lia|
                                apply lookup_delete_eq].
  - rewrite map_fold_insert_L; [cbv beta; lia|intros; lia|done].
Qed.

Lemma sum_over_empty {A} (f : A → N) : sum_over f (∅ : gmap N A) = 0.
Proof. unfold sum_over. apply map_fold_empty. Qed.

Lemma sum_over_le_size {A} (f : A → N) (m : gmap N A) :
  (∀ x, f x <= 1) → sum_over f m <= N.of_nat (size m).
Proof.
  intros Hf. induction m as [|k x m Hk IH] using map_ind.
  - by rewrite sum_over_empty.
  - pose proof (sum_over_insert f m k x) as H. rewrite Hk in H.
    cbn [from_option] in H. rewrite map_size_insert_None by done.
    specialize (Hf x). lia.
Qed.

Lemma count_events_app p l1 l2 :
  count_events p (l1 ++ l2) = count_events p l1 + count_events p l2.
Proof. induction l1 as [|e l1 IH]; cbn [count_events app]; lia. Qed.

(** The calls that leave the records alone log nothing but changes of the
    owner. *)
Lemma exec_frame_events env c w w' p :
  match c with
  | RegisterUser _ | AssignRole _ _ | CreateMatch _ _ | VerifyMatch _ => False
  | _ => True
  end →
  (∀ o n, p (OwnershipTransferred o n) = false) →
  exec env c w = Ok (tt, w') →
  count_events p (events (registry w')) = count_events p (events (registry w)).
Proof.
  intros Hc Hp H. destruct c; try done; cbn [exec] in H;
    unfold fundRewards, withdrawTokens, transferOwnership, renounceOwnership,
      onlyOwner in H; minv; try done;
    rewrite count_events_app; cbn [count_events]; rewrite Hp; lia.
Qed.

Lemma Stats_deployed self env _tokenAddress t :
  Stats (deployed self env _tokenAddress t).
Proof. split; done. Qed.

Lemma Stats_exec env c w w' :
  exec env c w = Ok (tt, w') → Inv w → Stats w → Stats w'.
Proof.
  intros H [He Hc Hd Hs HM HU] [H1 H2 H3 H4 H5 H6 H7].
  destruct c;
    try (match type of H with exec ?e ?c _ = _ =>
           pose proof (exec_token_frame e c _ _ I H)
             as (_ & _ & Hu & Hm & _ & _ & Htot & Hsucc);
           pose proof (λ p Hp, exec_frame_events e c _ _ p I Hp H) as Hev
         end;
         split; rewrite ?Hu, ?Hm, ?Htot, ?Hsucc, ?Hev; done);
    cbn [exec] in H.
  - (* registerUser *)
    apply registerUser_Ok in H as [[Hr Ha] ->].
    assert (users (registry w) !! msg_sender env = None) as Hnone.
    { destruct (users (registry w) !! msg_sender env) as [u|] eqn:Hu; [|done].
      apply HU in Hu as Hok. destruct Hok as (Hact & _).
      rewrite (user_at_Some _ _ _ Hu) in Ha. congruence. }
    unfold registerUser_post. split; fields;
      rewrite ?count_events_app; cbn [count_events is_UserRegistered
        is_MatchCreated is_MatchVerified is_RewardDistributed]; try lia.
    + intros a. rewrite user_at_insert. case_decide; [done|apply H1].
    + pose proof (sum_over_insert User.successfulMatches (users (registry w))
        (msg_sender env) (User.mk (msg_sender env) _role 0 0 true)) as Hsum.
      rewrite Hnone in Hsum. cbn [from_option User.successfulMatches User.set_role] in Hsum. lia.
    + rewrite map_size_insert_None by done. lia.
  - (* assignRole *)
    apply assignRole_Ok in H as [(Ho & Ha & Hr) ->].
    apply user_at_active in Ha as Hu.
    unfold assignRole_post. split; fields;
      rewrite ?count_events_app; cbn [count_events is_UserRegistered
        is_MatchCreated is_MatchVerified is_RewardDistributed]; try lia.
    + intros a. rewrite user_at_insert. case_decide; [subst|]; apply H1.
    + pose proof (sum_over_insert User.successfulMatches (users (registry w))
        _user (User.set_role _role (user_at (users (registry w)) _user))) as Hsum.
      rewrite Hu in Hsum. cbn [from_option User.successfulMatches User.set_role] in Hsum. lia.
    + rewrite map_size_insert_Some by done. lia.
  - (* createMatch *)
    minv. apply createMatch_Ok in H as [Hpre [-> ->]].
    assert (matches (registry w) !! matchCounter (registry w) = None) as Hfresh.
    { apply eq_None_not_Some. rewrite Hd. lia. }
    unfold createMatch_post. split; fields;
      rewrite ?count_events_app; cbn [count_events is_UserRegistered
        is_MatchCreated is_MatchVerified is_RewardDistributed]; try lia; try done.
    pose proof (sum_over_insert (λ m, if Match.isVerified m then 1 else 0)
      (matches (registry w)) (matchCounter (registry w))
      (Match.mk (matchCounter (registry w)) (msg_sender env) _peer1 _peer2
         REWARD_AMOUNT false (block_timestamp env) 0)) as Hsum.
    rewrite Hfresh in Hsum. cbn [from_option Match.isVerified] in Hsum. unfold verified_matches in *. lia.
  - (* verifyMatch *)
    apply verifyMatch_Ok in H as [((_ & Hv & Hi & Hnv & Hcr) & _) ->].
    destruct (proj2 (Hd _matchId) Hi) as [m Hm].
    rewrite (match_at_Some _ _ _ Hm) in *.
    destruct (HM _ _ Hm) as (?&Hrew&?&?&[u Hu]&?&?&?&?&?).
    unfold verifyMatch_post. rewrite (match_at_Some _ _ _ Hm).
    rewrite (user_at_Some _ _ _ Hu).
    split; fields;
      rewrite ?count_events_app; cbn [count_events is_UserRegistered
        is_MatchCreated is_MatchVerified is_RewardDistributed]; try lia.
    + intros a. rewrite user_at_insert. case_decide; [subst; fields|apply H1].
      specialize (H1 (Match.matchmaker m)).
      rewrite (user_at_Some _ _ _ Hu) in H1. lia.
    + pose proof (sum_over_insert (λ m, if Match.isVerified m then 1 else 0)
        (matches (registry w)) _matchId
        (Match.mk (Match.matchId m) (Match.matchmaker m) (Match.peer1 m)
           (Match.peer2 m) (Match.rewardAmount m) true (Match.createdAt m)
           (block_timestamp env))) as Hsum.
      rewrite Hm in Hsum. cbn [from_option Match.isVerified] in Hsum. rewrite Hnv in Hsum.
      unfold verified_matches in *. lia.
    + pose proof (sum_over_insert User.successfulMatches (users (registry w))
        (Match.matchmaker m)
        (User.mk (User.userAddress u) (User.role u)
           (User.totalRewardsEarned u + Match.rewardAmount m)
           (User.successfulMatches u + 1) (User.isActive u))) as Hsum.
      rewrite Hu in Hsum. cbn [from_option User.successfulMatches User.set_role] in Hsum. lia.
    + rewrite map_size_insert_Some by done. lia.
Qed.

Lemma steps_Stats w0 tr w : Inv w0 → Stats w0 → steps w0 tr w → Stats w.
Proof.
  intros HI HS. induction 1; [done|].
  eapply Stats_exec; [done| |done]. by eapply steps_Inv.
Qed.

Lemma reachable_Stats w : reachable w → Stats w.
Proof.
  intros (w0 & tr & (self & env & ta & t & Hv & ->) & Hs).
  eapply steps_Stats; [apply Inv_deployed|apply Stats_deployed|done].
Qed.

Lemma sum_over_scale {A} (f g : A → N) c (m : gmap N A) :
  (∀ k x, m !! k = Some x → f x = g x * c) →
  sum_over f m = sum_over g m * c.
Proof.
  induction m as [|k x m Hk IH] using map_ind; intros Hf.
  - by rewrite !sum_over_empty.
  - pose proof (sum_over_insert f m k x) as H1.
    pose proof (sum_over_insert g m k x) as H2.
    rewrite Hk in H1, H2. cbn [from_option] in H1, H2.
    rewrite (Hf k x) in H1 by apply lookup_insert_eq.
    rewrite IH in H1; [lia|].
    intros k' x' Hk'. apply (Hf k'). rewrite lookup_insert_ne; [done|].
    intros ->. congruence.
Qed.

(** * Running a computation by rewriting *)

Lemma run_bind {S A B C} (c : M S A) (k1 : A → M S B) (k2 : B → M S C) s :
  ((c ≫= k1) ≫= k2) s = (c ≫= λ a, k1 a ≫= k2) s.
Proof.
  unfold mbind, M_bind, bind. destruct (c s) as [[a s']| |]; done.
Qed.

Lemma run_ret {S A B} (a : A) (k : A → M S B) s : (ret a ≫= k) s = k a s.
Proof. done. Qed.

Lemma run_require {S B} (cond : bool) reason (k : unit → M S B) s :
  (require cond reason ≫= k) s = if cond then k tt s else Revert reason.
Proof. by destruct cond. Qed.

Lemma run_gets {S A B} (f : S → A) (k : A → M S B) s :
  (gets f ≫= k) s = k (f s) s.
Proof. done. Qed.

Lemma run_modify {S B} (f : S → S) (k : unit → M S B) s :
  (modify f ≫= k) s = k tt (f s).
Proof. done. Qed.

Lemma run_checked_add {S B} x y (k : N → M S B) s :
  (checked_add x y ≫= k) s =
  if x + y <=? MAX_UINT256 then k (x + y) s else Panic ARITHMETIC_PANIC.
Proof. unfold checked_add. by destruct (x + y <=? MAX_UINT256). Qed.

Lemma run_read {A B} (f : State → A) (k : A → M World B) w :
  (read f ≫= k) w = k (f (registry w)) w.
Proof. done. Qed.

Lemma run_update {B} (f : State → State) (k : unit → M World B) w :
  (update f ≫= k) w = k tt (mkWorld (this w) (f (registry w)) (token w)).
Proof. done. Qed.

Lemma run_emit {B} e (k : unit → M World B) w :
  (emit e ≫= k) w = k tt (mkWorld (this w) (add_event e (registry w)) (token w)).
Proof. done. Qed.

Lemma run_if {S B} (b : bool) (c1 c2 : M S unit) (k : unit → M S B) s :
  ((if b then c1 else c2) ≫= k) s = if b then (c1 ≫= k) s else (c2 ≫= k) s.
Proof. by destruct b. Qed.

Ltac run_rewrite :=
  repeat first
    [ rewrite run_bind | rewrite run_ret | rewrite run_require
    | rewrite run_gets | rewrite run_modify | rewrite run_checked_add
    | rewrite run_read | rewrite run_update | rewrite run_emit
    | rewrite run_if ];
  cbv beta.

Lemma createMatch_run env _peer1 _peer2 w :
  Inv w →
  createMatch env _peer1 _peer2 w = createMatch_outcome env _peer1 _peer2 w.
Proof.
  intros [He Hc Hd Hs HM HU].
  unfold createMatch, nonReentrant, createMatch_outcome, createMatch_post.
  run_rewrite. fields. rewrite He. cbn [negb]. run_rewrite. setters.
  rewrite <- Hc.
  destruct (User.isActive _); [|done].
  case_bool_decide; [|done].
  destruct (_peer1 =? address0); [done|].
  destruct (_peer2 =? address0); [done|].
  destruct (_peer1 =? _peer2); [done|]. cbn [negb andb orb].
  destruct (N.leb_spec (matchCounter (registry w) + 1) MAX_UINT256) as [Hle|Hle].
  - apply N.ltb_ge in Hle. rewrite Hle. done.
  - apply N.ltb_lt in Hle. rewrite Hle. done.
Qed.

(** [Token._transfer], run. *)
Lemma run_transfer {B} from to amount (k : unit → M Token.State B) t :
  (Token._transfer from to amount ≫= k) t =
  if from =? address0 then Revert "ERC20: transfer from the zero address"
  else if to =? address0 then Revert "ERC20: transfer to the zero address"
  else if Token.balance t from <? amount
       then Revert "ERC20: transfer amount exceeds balance"
  else if MAX_UINT256 <?
            default 0 (debit from amount (Token.balances t) !! to) + amount
       then Panic ARITHMETIC_PANIC
  else k tt (transfer_post from to amount t).
Proof.
  unfold Token._transfer, Token.emit, transfer_post, credit, debit.
  run_rewrite. fields.
  destruct (from =? address0); [done|].
  destruct (to =? address0); [done|]. cbn [negb].
  rewrite (N.ltb_antisym amount).
  destruct (amount <=? _); [|done]. cbn [negb].
  rewrite (N.ltb_antisym _ MAX_UINT256).
  destruct (_ <=? MAX_UINT256); done.
Qed.

Lemma run_call_token {A B} env (c : Env → M Token.State A) (k : A → M World B) w :
  (call_token env c ≫= k) w =
  match c {| msg_sender := this w; block_timestamp := block_timestamp env |}
          (token w) with
  | Ok (a, t') => k a (mkWorld (this w) (registry w) t')
  | Revert r => Revert r
  | Panic c => Panic c
  end.
Proof.
  unfold mbind, M_bind, bind, call_token.
  destruct (c _ (token w)) as [[a t']| |]; done.
Qed.

Lemma nonReentrant_run {A} (body : M World A) w :
  entered (registry w) = false →
  nonReentrant body w =
  match body (mkWorld (this w) (set_entered true (registry w)) (token w)) with
  | Ok (r, w1) => Ok (r, mkWorld (this w1) (set_entered false (registry w1)) (token w1))
  | Revert r => Revert r
  | Panic c => Panic c
  end.
Proof.
  intros He. unfold nonReentrant. run_rewrite. rewrite He. cbn [negb].
  unfold mbind, M_bind, bind. destruct (body _) as [[r w1]| |]; done.
Qed.

Lemma sum_over_lookup_le {A} (f : A → N) (m : gmap N A) k x :
  m !! k = Some x → f x <= sum_over f m.
Proof.
  intros Hk. pose proof (sum_over_insert f (delete k m) k x) as H.
  rewrite insert_delete_id in H by done. rewrite lookup_delete_eq in H.
  cbn [from_option] in H. lia.
Qed.

Lemma verifyMatch_run env _matchId w :
  Inv w → Stats w → this w ≠ address0 →
  verifyMatch env _matchId w = verifyMatch_outcome env _matchId w.
Proof.
  intros [He Hc Hd Hs HM HU] HS H0.
  unfold verifyMatch, nonReentrant, verifyMatch_mark, _distributeReward,
    verifyMatch_outcome, verifyMatch_post.
  run_rewrite. fields. rewrite He. cbn [negb]. run_rewrite. setters.
  case_bool_decide; [|done]. cbn [negb].
  destruct (N.ltb_spec _matchId (matchCounter (registry w))) as [Hi|Hi]; [|done].
  cbn [negb].
  destruct (proj2 (Hd _matchId) Hi) as [m Hm].
  rewrite (match_at_Some _ _ _ Hm) in *.
  destruct (HM _ _ Hm) as (?&Hrew&Hthis&Hmm0&[u Hu]&?&?&?&Hcr&?).
  destruct (Match.isVerified m) eqn:Hver; [done|]. cbn [negb].
  apply N.eqb_neq in Hcr. rewrite Hcr. cbn [negb].
  rewrite (N.ltb_antisym _ MAX_UINT256).
  destruct (N.leb_spec (successfulMatches (registry w) + 1) MAX_UINT256)
    as [Hsucc|Hsucc]; [|done]. cbn [negb].
  norm. rewrite Hrew.
  rewrite run_call_token. unfold Token.balanceOf, gets. fields.
  run_rewrite. fields. rewrite (user_at_Some _ _ _ Hu).
  rewrite (N.ltb_antisym REWARD_AMOUNT).
  destruct (N.leb_spec REWARD_AMOUNT (default 0 (Token.balances (token w) !! this w)))
    as [Hbal|Hbal]; [|done]. cbn [negb].
  rewrite (N.ltb_antisym _ MAX_UINT256).
  destruct (N.leb_spec (User.totalRewardsEarned u + REWARD_AMOUNT) MAX_UINT256)
    as [Hearn|Hearn]; [|done]. cbn [negb].
  norm.
  destruct HS as [_ _ Hsum _ _ _ _].
  pose proof (sum_over_lookup_le User.successfulMatches _ _ _ Hu) as Hle.
  rewrite Hsum in Hle.
  destruct (N.leb_spec (User.successfulMatches u + 1) MAX_UINT256)
    as [Hcount|Hcount]; [|lia].
  rewrite run_call_token. unfold Token.transfer. fields.
  rewrite run_transfer. fields.
  apply N.eqb_neq in H0 as ->. apply N.eqb_neq in Hmm0 as ->.
  rewrite (proj2 (N.ltb_ge _ _) Hbal).
  unfold debit. rewrite lookup_insert_ne by done.
  destruct (MAX_UINT256 <? _); [done|].
  unfold ret at 1. run_rewrite. unfold ret. setters.
  unfold Match.set_completedAt, Match.set_isVerified,
    User.set_successfulMatches, User.set_totalRewardsEarned. fields.
  rewrite Hrew, <- (assoc_L (++)). done.
Qed.
(** * The verifier set *)

Lemma exec_verifier_set d env c w w' :
  exec env c w = Ok (tt, w') →
  (∀ a, a ∈ verifiers (registry w) →
        a = d ∨ User.isActive (user_at (users (registry w)) a) = true) ∧
  (∀ a, User.role (user_at (users (registry w)) a) = VERIFIER →
        a ∈ verifiers (registry w)) →
  (∀ a, a ∈ verifiers (registry w') →
        a = d ∨ User.isActive (user_at (users (registry w')) a) = true) ∧
  (∀ a, User.role (user_at (users (registry w')) a) = VERIFIER →
        a ∈ verifiers (registry w')).
Proof.
  intros H [H1 H2].
  destruct c;
    try (by eapply exec_token_frame in H as (_&_&->&_&->&_));
    cbn [exec] in H.
  - apply registerUser_Ok in H as [_ ->]. unfold registerUser_post; fields.
    split; intros a; rewrite user_at_insert; case_decide; subst; fields.
    + by right.
    + case_bool_decide; [rewrite elem_of_union, elem_of_singleton|]; [|auto].
      intros [?|?]; [done|auto].
    + intros ->. rewrite bool_decide_eq_true_2 by done. set_solver.
    + case_bool_decide; [set_solver|auto].
  - apply assignRole_Ok in H as [(_ & Ha & _) ->].
    unfold assignRole_post; fields.
    split; intros a; rewrite user_at_insert; case_decide; subst; fields.
    + by right.
    + case_bool_decide; [rewrite elem_of_union, elem_of_singleton|]; [|auto].
      intros [?|?]; [done|auto].
    + intros ->. rewrite bool_decide_eq_true_2 by done. set_solver.
    + case_bool_decide; [set_solver|auto].
  - minv. match goal with H : createMatch _ _ _ _ = _ |- _ =>
      apply createMatch_Ok in H as (_ & _ & ->) end. done.
  - apply verifyMatch_Ok in H as [_ ->]. unfold verifyMatch_post; fields.
    split; intros a; rewrite user_at_insert; case_decide; subst; fields; auto.
Qed.

(** * Records over a history *)

(** A successful transaction keeps what identifies an allocated match. *)
Lemma exec_match_identity env c w w' i :
  Inv w →
  i < matchCounter (registry w) →
  exec env c w = Ok (tt, w') →
  let m := match_at (matches (registry w)) i in
  let m' := match_at (matches (registry w')) i in
  Match.matchId m' = Match.matchId m ∧
  Match.matchmaker m' = Match.matchmaker m ∧
  Match.peer1 m' = Match.peer1 m ∧ Match.peer2 m' = Match.peer2 m ∧
  Match.rewardAmount m' = Match.rewardAmount m ∧
  Match.createdAt m' = Match.createdAt m.
Proof.
  intros HI Hi H. cbv zeta.
  assert (c = VerifyMatch i ∨ c ≠ VerifyMatch i) as [->|Hc].
  { destruct c; try (by right).
    destruct (decide (_matchId = i)) as [->|]; [by left|right; congruence]. }
  - cbn [exec] in H. apply verifyMatch_Ok in H as [_ ->].
    unfold verifyMatch_post; fields. by rewrite match_at_insert_eq.
  - by rewrite (exec_match_unchanged _ _ _ _ _ HI Hi Hc H).
Qed.

Lemma steps_match_identity w tr w' i :
  Inv w →
  i < matchCounter (registry w) →
  steps w tr w' →
  let m := match_at (matches (registry w)) i in
  let m' := match_at (matches (registry w')) i in
  i < matchCounter (registry w') ∧
  Match.matchId m' = Match.matchId m ∧
  Match.matchmaker m' = Match.matchmaker m ∧
  Match.peer1 m' = Match.peer1 m ∧ Match.peer2 m' = Match.peer2 m ∧
  Match.rewardAmount m' = Match.rewardAmount m ∧
  Match.createdAt m' = Match.createdAt m.
Proof.
  intros HI Hi. cbv zeta.
  induction 1 as [|tr w1 env c w2 Hs (Hi1 & IH) Hv _ Hx]; [done|].
  pose proof (steps_Inv _ _ _ HI Hs) as HI1. split.
  - pose proof (exec_counters _ _ _ _ Hx) as Hc. destruct c; lia.
  - pose proof (exec_match_identity _ _ _ _ _ HI1 Hi1 Hx) as Hid.
    cbv zeta in Hid. destruct_and!. split_and!; congruence.
Qed.

(** A successful transaction keeps a user's address and activity, and does
    not lower the user's statistics. *)
Lemma exec_user_mono env c w w' a :
  exec env c w = Ok (tt, w') →
  let u := user_at (users (registry w)) a in
  let u' := user_at (users (registry w')) a in
  User.isActive u = true →
  User.isActive u' = true ∧ User.userAddress u' = User.userAddress u ∧
  User.successfulMatches u <= User.successfulMatches u' ∧
  User.totalRewardsEarned u <= User.totalRewardsEarned u'.
Proof.
  intros H. cbv zeta. intros Ha.
  destruct c;
    try (by eapply exec_token_frame in H as (_&_&->&_));
    cbn [exec] in H.
  - apply registerUser_Ok in H as [[_ Hn] ->]. unfold registerUser_post; fields.
    rewrite user_at_insert. case_decide; [subst; congruence|done].
  - apply assignRole_Ok in H as [_ ->]. unfold assignRole_post; fields.
    rewrite user_at_insert. case_decide; [by subst|done].
  - minv. match goal with H : createMatch _ _ _ _ = _ |- _ =>
      apply createMatch_Ok in H as (_ & _ & ->) end. done.
  - apply verifyMatch_Ok in H as [_ ->]. unfold verifyMatch_post; fields.
    rewrite user_at_insert. case_decide; [subst; fields|done].
    split_and!; [done..|lia|lia].
Qed.
(** * The admin functions *)

Lemma withdrawTokens_Ok env _amount w w' :
  withdrawTokens env _amount w = Ok (tt, w') ↔
  withdrawTokens_pre env _amount w ∧ w' = withdrawTokens_post env _amount w.
Proof.
  unfold withdrawTokens, onlyOwner, withdrawTokens_pre, withdrawTokens_post,
    Token.transfer, Token.balanceOf.
  split.
  - intros H. minv. bprop.
    match goal with H : Token._transfer _ _ _ _ = _ |- _ =>
      apply transfer_Ok in H; destruct H as [? ->] end.
    done.
  - intros ((? & ? & ? & ?) & ->). mrun; bprop; fields; done.
Qed.

Lemma fundRewards_Ok env _amount w w' :
  fundRewards env _amount w = Ok (tt, w') ↔
  fundRewards_pre env _amount w ∧ w' = fundRewards_post env _amount w.
Proof.
  unfold fundRewards, onlyOwner, fundRewards_pre, fundRewards_post,
    Token.transferFrom, Token._spendAllowance, Token._approve, Token.emit,
    spendAllowance_post, transfer_pre.
  split.
  - intros H. minv; bprop.
    + match goal with H : Token._transfer _ _ _ _ = _ |- _ =>
        apply transfer_Ok in H; destruct H as [Hpre ->] end.
      unfold transfer_pre in Hpre. fields.
      match goal with H : _ = MAX_UINT256 |- _ => rewrite H end.
      rewrite N.eqb_refl. destruct_and!. split_and!; try done. by left.
    + match goal with H : Token._transfer _ _ _ _ = _ |- _ =>
        apply transfer_Ok in H; destruct H as [Hpre ->] end.
      unfold transfer_pre in Hpre. fields.
      match goal with H : _ ≠ MAX_UINT256 |- _ =>
        apply N.eqb_neq in H as Hb; rewrite Hb end.
      destruct_and!. split_and!; try done. by right.
  - intros ((Ho & Ha & Hal & Hpre) & ->).
    run_rewrite. fields.
    apply N.eqb_eq in Ho as ->. apply N.ltb_lt in Ha as ->.
    rewrite run_call_token. fields. run_rewrite. fields.
    destruct (N.eqb_spec
                (default 0 (Token.allowances (token w) !! (msg_sender env, this w)))
                MAX_UINT256) as [Hmax|Hmax].
    + rewrite run_transfer. fields.
      destruct Hpre as (Hs & Ht & Hb & Hov).
      apply N.eqb_neq in Hs as ->. apply N.eqb_neq in Ht as ->.
      apply N.ltb_ge in Hb as ->. apply N.ltb_ge in Hov as ->. done.
    + destruct Hal as [?|[Hle Ht]]; [done|].
      destruct Hpre as (Hs & _ & Hb & Hov).
      run_rewrite. fields.
      apply N.leb_le in Hle as ->.
      apply N.eqb_neq in Hs. apply N.eqb_neq in Ht. rewrite Hs, Ht. cbn [negb].
      rewrite run_transfer. fields. rewrite Hs, Ht.
      apply N.ltb_ge in Hb as ->. apply N.ltb_ge in Hov as ->. done.
Qed.

Lemma Inv_registry w w' :
  this w' = this w → registry w' = registry w → Inv w → Inv w'.
Proof.
  intros Ht Hr. apply Inv_same_records. unfold same_records.
  by rewrite Ht, Hr.
Qed.

Lemma Stats_registry w w' : registry w' = registry w → Stats w → Stats w'.
Proof. intros Hr [? ? ? ? ? ? ?]. split; rewrite Hr; done. Qed.

(** * The ledger's supply *)

Lemma sum_balances_lookup_le (bs : gmap N N) a :
  default 0 (bs !! a) <= sum_balances bs.
Proof.
  pose proof (sum_balances_insert (delete a bs) a (default 0 (bs !! a))) as H.
  rewrite lookup_delete_eq in H. cbn [default] in H.
  destruct (bs !! a) as [x|] eqn:Ha; cbn [default] in *.
  - rewrite insert_delete_id in H by done. lia.
  - lia.
Qed.

Lemma sum_balances_lookup_le2 (bs : gmap N N) a b :
  a ≠ b → default 0 (bs !! a) + default 0 (bs !! b) <= sum_balances bs.
Proof.
  intros Hne.
  pose proof (sum_balances_insert bs a 0) as H1.
  pose proof (sum_balances_lookup_le (<[a := 0]> bs) b) as H2.
  rewrite lookup_insert_ne in H2 by done. lia.
Qed.

Lemma supply_ok_transfer from to amount t :
  amount <= Token.balance t from →
  supply_ok t → supply_ok (transfer_post from to amount t).
Proof.
  intros Hle [Hsum Hmax]. unfold Token.balance in Hle.
  split; [|done]. unfold transfer_post, credit, debit.
  cbn [Token.balances Token.totalSupply]. rewrite <- Hsum.
  pose proof (sum_balances_insert (Token.balances t) from
                (default 0 (Token.balances t !! from) - amount)) as H1.
  pose proof (sum_balances_insert
                (<[from := default 0 (Token.balances t !! from) - amount]>
                   (Token.balances t)) to
                (default 0
                   (<[from := default 0 (Token.balances t !! from) - amount]>
                      (Token.balances t) !! to) + amount)) as H2.
  lia.
Qed.

Lemma supply_ok_spendAllowance owner spender amount t :
  supply_ok t → supply_ok (spendAllowance_post owner spender amount t).
Proof. unfold spendAllowance_post. by case_match. Qed.

Lemma supply_ok_Transfer from to amount t u t' :
  Token._transfer from to amount t = Ok (u, t') → supply_ok t → supply_ok t'.
Proof.
  intros [(_ & _ & Hle & _) ->]%transfer_Ok. by apply supply_ok_transfer.
Qed.

Lemma supply_ok_approve owner spender amount t u t' :
  Token._approve owner spender amount t = Ok (u, t') → supply_ok t → supply_ok t'.
Proof. unfold Token._approve, Token.emit. intros H. minv. done. Qed.

Lemma supply_ok_spend owner spender amount t u t' :
  Token._spendAllowance owner spender amount t = Ok (u, t') →
  supply_ok t → supply_ok t'.
Proof.
  unfold Token._spendAllowance. intros H. minv; [done|].
  by eapply supply_ok_approve.
Qed.

Lemma supply_ok_mint account amount t u t' :
  Token._mint account amount t = Ok (u, t') → supply_ok t → supply_ok t'.
Proof.
  unfold Token._mint, Token.emit. intros H [Hsum Hmax]. minv. bprop.
  split; cbn [Token.balances Token.totalSupply]; [|done].
  pose proof (sum_balances_insert (Token.balances t) account
                (default 0 (Token.balances t !! account) + amount)) as Hins.
  lia.
Qed.

Lemma supply_ok_burn account amount t u t' :
  Token._burn account amount t = Ok (u, t') → supply_ok t → supply_ok t'.
Proof.
  unfold Token._burn, Token.emit. intros H [Hsum Hmax]. minv. bprop.
  pose proof (sum_balances_insert (Token.balances t) account
                (default 0 (Token.balances t !! account) - amount)) as Hins.
  pose proof (sum_balances_lookup_le (Token.balances t) account) as Hle.
  split; cbn [Token.balances Token.totalSupply]; lia.
Qed.

Lemma supply_ok_constructor env initialSupply t :
  Token.constructor env initialSupply Token.empty = Ok (tt, t) → supply_ok t.
Proof.
  unfold Token.constructor. intros H. minv.
  eapply supply_ok_mint; [done|]. split; [done|]. cbn. lia.
Qed.

Lemma supply_ok_exec env c w w' :
  Inv w →
  exec env c w = Ok (tt, w') → supply_ok (token w) → supply_ok (token w').
Proof.
  intros HI H Hok. destruct c; cbn [exec] in H.
  - by apply registerUser_Ok in H as [_ ->].
  - by apply assignRole_Ok in H as [_ ->].
  - minv. match goal with H : createMatch _ _ _ _ = _ |- _ =>
      apply createMatch_Ok in H as (_ & _ & ->) end. done.
  - apply verifyMatch_Ok in H as [(_ & _ & Hb & _) ->].
    unfold verifyMatch_post. cbn [token]. by apply supply_ok_transfer.
  - apply fundRewards_Ok in H as [(_ & _ & _ & (_ & _ & Hb & _)) ->].
    unfold fundRewards_post. cbn [token].
    apply supply_ok_transfer; [|by apply supply_ok_spendAllowance].
    unfold spendAllowance_post. by case_match.
  - apply withdrawTokens_Ok in H as [(_ & _ & Hb & _) ->].
    unfold withdrawTokens_post. cbn [token]. by apply supply_ok_transfer.
  - unfold transferOwnership, onlyOwner in H. minv. done.
  - unfold renounceOwnership, onlyOwner in H. minv. done.
  - unfold Token.transfer in H. minv. by eapply supply_ok_Transfer.
  - unfold Token.approve in H. minv. by eapply supply_ok_approve.
  - unfold Token.transferFrom in H. minv.
    eapply supply_ok_Transfer; [done|]. by eapply supply_ok_spend.
  - unfold Token.mint, Token.onlyOwner in H. minv. by eapply supply_ok_mint.
  - unfold Token.burn in H. minv. by eapply supply_ok_burn.
  - unfold transferOwnership_token, Token.onlyOwner in H. minv. done.
  - unfold renounceOwnership_token, Token.onlyOwner in H. minv. done.
Qed.

Lemma supply_ok_steps w0 tr w :
  Inv w0 → supply_ok (token w0) → steps w0 tr w → supply_ok (token w).
Proof.
  intros HI Hok. induction 1; [done|].
  eapply supply_ok_exec; [|done|done]. by eapply steps_Inv.
Qed.
(** * Properties of the statistics *)

(** X1. In every reachable state, [getMatchmakerStats] returns without
    changing the state, and what it returns is consistent: the total of
    rewards earned is the number of successful matches times the fixed
    reward; an address that is not active has no successful match; and no
    matchmaker has more successful matches than the registry counts in
    all. *)
Theorem matchmaker_stats_consistent w _matchmaker :
  reachable w →
  ∃ n active,
    getMatchmakerStats _matchmaker w = Ok ((n * REWARD_AMOUNT, n, active), w) ∧
    (active = false → n = 0) ∧
    n <= successfulMatches (registry w).
Proof.
  intros Hr. pose proof (reachable_Inv _ Hr) as [He Hc Hd Hs HM HU].
  pose proof (reachable_Stats _ Hr) as [H1 _ H3 _ _ _ _].
  exists (User.successfulMatches (user_at (users (registry w)) _matchmaker)),
    (User.isActive (user_at (users (registry w)) _matchmaker)).
  split_and!.
  - unfold getMatchmakerStats. run_rewrite. by rewrite H1.
  - unfold user_at.
    destruct (users (registry w) !! _matchmaker) as [u|] eqn:Hu; [|done].
    apply HU in Hu as (Ha & _). cbn [default]. unfold id. intros; congruence.
  - unfold user_at.
    destruct (users (registry w) !! _matchmaker) as [u|] eqn:Hu;
      cbn [default]; [|cbn; lia].
    unfold id. rewrite <- H3. by eapply sum_over_lookup_le.
Qed.

(** In the scenario, after the verification: Alice has one successful
    match and one reward. *)
Lemma matchmaker_stats_consistent_witness :
  ∃ n active,
    getMatchmakerStats ALICE w_verified =
      Ok ((n * REWARD_AMOUNT, n, active), w_verified) ∧
    (active = false → n = 0) ∧
    n <= successfulMatches (registry w_verified).
Proof. exact (matchmaker_stats_consistent w_verified ALICE w_verified_reachable). Defined.

(** X2. In every reachable state the counter of successful matches is the
    number of match records marked verified, which is at most the number of
    matches created; so whenever [getProtocolStats] returns, the success
    rate it reports is at most 100. *)
Theorem success_rate_at_most_100 w :
  reachable w →
  successfulMatches (registry w) = verified_matches (matches (registry w)) ∧
  successfulMatches (registry w) <= totalMatches (registry w) ∧
  (∀ total successful rate w',
     getProtocolStats w = Ok ((total, successful, rate), w') →
     successful <= total ∧ rate <= 100 ∧
     (0 < total → successful = total → rate = 100)).
Proof.
  intros Hr. pose proof (reachable_Inv _ Hr) as [He Hc Hd Hs HM HU].
  pose proof (reachable_Stats _ Hr) as [_ H2 _ _ _ _ _].
  assert (successfulMatches (registry w) <= totalMatches (registry w)) as Hle.
  { rewrite H2, <- Hc, <- Hs. apply sum_over_le_size.
    intros m. destruct (Match.isVerified m); lia. }
  split_and!; [done..|].
  intros total successful rate w' H. unfold getProtocolStats in H.
  minv; bprop; simplify_eq.
  - split_and!; [done| |].
    + apply N.Div0.div_le_upper_bound. lia.
    + intros _ ->. rewrite N.mul_comm. apply N.div_mul. lia.
  - split_and!; [done|lia|lia].
Qed.

(** In the scenario, after the verification: one match of one is
    verified. *)
Lemma success_rate_at_most_100_witness :
  successfulMatches (registry w_verified) =
    verified_matches (matches (registry w_verified)) ∧
  successfulMatches (registry w_verified) <= totalMatches (registry w_verified) ∧
  ∃ rate, getProtocolStats w_verified = Ok ((1, 1, rate), w_verified) ∧
          rate <= 100.
Proof.
  destruct (success_rate_at_most_100 w_verified w_verified_reachable)
    as (H1 & H2 & H3).
  split_and!; [done..|]. exists 100.
  assert (getProtocolStats w_verified = Ok ((1, 1, 100), w_verified)) as Hg
    by (by vm_compute).
  split; [done|]. by destruct (H3 _ _ _ _ Hg) as (_ & ? & _).
Defined.

(** X3. In every reachable state the successful matches recorded for the
    users add up to the registry's counter of successful matches, and the
    rewards recorded as earned add up to that counter times the fixed
    reward. *)
Theorem user_statistics_add_up w :
  reachable w →
  sum_over User.successfulMatches (users (registry w)) =
    successfulMatches (registry w) ∧
  sum_over User.totalRewardsEarned (users (registry w)) =
    successfulMatches (registry w) * REWARD_AMOUNT.
Proof.
  intros Hr. pose proof (reachable_Stats _ Hr) as [H1 _ H3 _ _ _ _].
  split; [done|]. rewrite <- H3. apply sum_over_scale.
  intros k x Hk. specialize (H1 k). by rewrite (user_at_Some _ _ _ Hk) in H1.
Qed.

Lemma user_statistics_add_up_witness :
  sum_over User.successfulMatches (users (registry w_verified)) =
    successfulMatches (registry w_verified) ∧
  sum_over User.totalRewardsEarned (users (registry w_verified)) =
    successfulMatches (registry w_verified) * REWARD_AMOUNT.
Proof. exact (user_statistics_add_up w_verified w_verified_reachable). Defined.

(** X4. In every reachable state the event log of the registry holds one
    [MatchCreated] per match counted in totalMatches, one [MatchVerified]
    and one [RewardDistributed] per match counted in successfulMatches, and
    one [UserRegistered] per stored user record. *)
Theorem event_log_counts w :
  reachable w →
  count_events is_MatchCreated (events (registry w)) = totalMatches (registry w) ∧
  count_events is_MatchVerified (events (registry w)) =
    successfulMatches (registry w) ∧
  count_events is_RewardDistributed (events (registry w)) =
    successfulMatches (registry w) ∧
  count_events is_UserRegistered (events (registry w)) =
    N.of_nat (size (users (registry w))).
Proof.
  intros Hr. pose proof (reachable_Stats _ Hr) as [_ _ _ H4 H5 H6 H7]. done.
Qed.

Lemma event_log_counts_witness :
  count_events is_MatchCreated (events (registry w_verified)) =
    totalMatches (registry w_verified) ∧
  count_events is_MatchVerified (events (registry w_verified)) =
    successfulMatches (registry w_verified) ∧
  count_events is_RewardDistributed (events (registry w_verified)) =
    successfulMatches (registry w_verified) ∧
  count_events is_UserRegistered (events (registry w_verified)) =
    N.of_nat (size (users (registry w_verified))).
Proof. exact (event_log_counts w_verified w_verified_reachable). Defined.

(** * The verifier set, and the order of the checks *)

(** X5. After the deployment of the registry and any history of successful
    transactions: the deployer is in the verifier set (the constructor puts
    it there, without a user record); every member of the set is the
    deployer or has an active user record; and every user whose stored role
    is VERIFIER is in the set. *)
Theorem verifier_set_members self env _tokenAddress t tr w :
  steps (deployed self env _tokenAddress t) tr w →
  msg_sender env ∈ verifiers (registry w) ∧
  (∀ a, a ∈ verifiers (registry w) →
        a = msg_sender env ∨
        User.isActive (user_at (users (registry w)) a) = true) ∧
  (∀ a, User.role (user_at (users (registry w)) a) = VERIFIER →
        a ∈ verifiers (registry w)).
Proof.
  induction 1 as [|tr w env' c w' Hs (IH1 & IH2) _ _ Hx].
  - cbn. split_and!; [set_solver|set_solver|done].
  - split; [by eapply exec_verifiers|]. by eapply exec_verifier_set.
Qed.

(** In the scenario: the deployer, who never registered, and Bob are the
    verifiers. *)
Lemma verifier_set_members_witness :
  DEPLOYER ∈ verifiers (registry w_registered) ∧
  User.isActive (user_at (users (registry w_registered)) DEPLOYER) = false ∧
  BOB ∈ verifiers (registry w_registered).
Proof.
  assert (steps w_deployed (rev registrations ++ []) w_registered) as Hs.
  { apply (run_steps w_deployed [] _ w_deployed); [constructor|by vm_compute]. }
  destruct (verifier_set_members REGISTRY deployer TOKEN token_deployed _ _ Hs)
    as (Hd & _ & Hv).
  split_and!; [exact Hd|by vm_compute|apply Hv; by vm_compute].
Defined.

(** X6. In every reachable state of a registry that is not at the zero
    address, [verifyMatch] behaves as the table [verifyMatch_outcome]: the
    caller is checked first (NotVerifier), then the id (UnknownMatch), then
    the verified flag (AlreadyVerified); then the increment of the counter
    of successful matches can overflow; then the registry's balance is
    compared with the fixed reward (InsufficientBalance); then the
    matchmaker's total of rewards and the matchmaker's ledger balance can
    overflow; otherwise the call succeeds and writes [verifyMatch_post]. *)
Theorem verifyMatch_order_of_checks env _matchId w :
  reachable w → this w ≠ address0 →
  verifyMatch env _matchId w = verifyMatch_outcome env _matchId w.
Proof.
  intros Hr H0. apply verifyMatch_run; [by apply reachable_Inv| |done].
  by apply reachable_Stats.
Qed.

(** In the scenario: Carol is refused as a non-verifier; Bob is refused for
    an unknown id, then for the balance before the registry is funded, and
    succeeds once it is funded; his second call is refused as already
    verified. *)
Lemma verifyMatch_order_of_checks_witness :
  verifyMatch carol 7 w_created = Revert NotVerifier ∧
  verifyMatch bob 7 w_created = Revert UnknownMatch ∧
  verifyMatch bob 0 w_created = Revert InsufficientBalance ∧
  verifyMatch bob 0 w_funded = Ok (tt, w_verified) ∧
  verifyMatch bob 0 w_verified = Revert AlreadyVerified.
Proof.
  split_and!;
    (etrans; [apply verifyMatch_order_of_checks;
                [first [apply w_created_reachable | apply w_funded_reachable
                       | apply w_verified_reachable]
                |by vm_compute]
             |by vm_compute]).
Defined.

(** X7. In every reachable state of a registry that is not at the zero
    address, a [verifyMatch] that reverts does so with one of four reasons:
    NotVerifier, UnknownMatch, AlreadyVerified or InsufficientBalance. The
    check "Match does not exist", the reentrancy guard and the checks of the
    ledger's transfer never fail there. A [createMatch] that reverts does
    so with one of its four reasons, and never for the reentrancy
    guard. *)
Theorem revert_reasons w :
  reachable w → this w ≠ address0 →
  (∀ env _matchId reason,
     verifyMatch env _matchId w = Revert reason →
     reason ∈ [NotVerifier; UnknownMatch; AlreadyVerified; InsufficientBalance]) ∧
  (∀ env _peer1 _peer2 reason,
     createMatch env _peer1 _peer2 w = Revert reason →
     reason ∈ [MatchmakerNotRegistered; OnlyMatchmakers;
               "Invalid peer addresses"; "Peers must be different"]).
Proof.
  intros Hr H0. split.
  - intros env i reason.
    rewrite verifyMatch_run by auto using reachable_Inv, reachable_Stats.
    unfold verifyMatch_outcome.
    repeat (case_match; [intros [= <-]; set_solver|]); done.
  - intros env p1 p2 reason.
    rewrite createMatch_run by auto using reachable_Inv.
    unfold createMatch_outcome.
    repeat case_match; try done; intros [= <-]; set_solver.
Qed.

(** In the scenario, after the verification. *)
Lemma revert_reasons_witness :
  reachable w_verified ∧ this w_verified ≠ address0 ∧
  (∀ env _matchId reason,
     verifyMatch env _matchId w_verified = Revert reason →
     reason ∈ [NotVerifier; UnknownMatch; AlreadyVerified; InsufficientBalance]) ∧
  (∀ env _peer1 _peer2 reason,
     createMatch env _peer1 _peer2 w_verified = Revert reason →
     reason ∈ [MatchmakerNotRegistered; OnlyMatchmakers;
               "Invalid peer addresses"; "Peers must be different"]).
Proof.
  assert (this w_verified ≠ address0) as H0 by (by vm_compute).
  split_and!; [apply w_verified_reachable|done|..];
    apply (revert_reasons w_verified w_verified_reachable H0).
Defined.

(** X8. In every reachable state, [createMatch] behaves as the table
    [createMatch_outcome]: the caller's record must be active
    (MatchmakerNotRegistered), then have the role MATCHMAKER
    (OnlyMatchmakers), then both peers must be non-zero, then different;
    then the increment of the match counter can overflow; otherwise the
    call returns the counter as the new id and writes [createMatch_post].
    The ledger is not consulted: a match can be created while the registry
    holds no reward. *)
Theorem createMatch_order_of_checks env _peer1 _peer2 w :
  reachable w →
  createMatch env _peer1 _peer2 w = createMatch_outcome env _peer1 _peer2 w ∧
  ∀ t, createMatch_outcome env _peer1 _peer2
         (mkWorld (this w) (registry w) t) =
       match createMatch_outcome env _peer1 _peer2 w with
       | Ok (i, w') => Ok (i, mkWorld (this w') (registry w') t)
       | Revert r => Revert r
       | Panic c => Panic c
       end.
Proof.
  intros Hr. split; [by apply createMatch_run, reachable_Inv|].
  intros t. unfold createMatch_outcome, createMatch_post. fields.
  repeat case_match; done.
Qed.

(** In the scenario: a deployer who is not registered, Bob who is no
    matchmaker, and Alice with bad peers are refused in this order of
    checks; Alice's call with two peers is given id 0 while the registry
    holds no token. *)
Lemma createMatch_order_of_checks_witness :
  createMatch deployer 0 0 w_registered = Revert MatchmakerNotRegistered ∧
  createMatch bob 0 0 w_registered = Revert OnlyMatchmakers ∧
  createMatch alice 0 PEER2 w_registered = Revert "Invalid peer addresses" ∧
  createMatch alice PEER1 PEER1 w_registered = Revert "Peers must be different" ∧
  createMatch alice PEER1 PEER2 w_registered = Ok (0, w_created) ∧
  Token.balance (token w_registered) REGISTRY = 0.
Proof.
  split_and!;
    try (etrans; [apply createMatch_order_of_checks, w_registered_reachable
                 |by vm_compute]).
  by vm_compute.
Defined.

(** * Roles and records *)

(** X9. [assignRole] checks the caller first (it must be the owner), then
    the target (it must have an active record: a role cannot be given to an
    address before it registers), then the role (not NONE). On success the
    target's record has the new role and its address, statistics and
    activity as before; no other user record, no match record, no counter
    and no balance changes; the target joins the verifier set when the role
    is VERIFIER, and the set is unchanged otherwise. *)
Theorem assignRole_correct env _user _role w :
  let u := user_at (users (registry w)) _user in
  (owner (registry w) ≠ msg_sender env →
   assignRole env _user _role w = Revert "Ownable: caller is not the owner") ∧
  (owner (registry w) = msg_sender env → User.isActive u = false →
   assignRole env _user _role w = Revert NotRegistered) ∧
  (owner (registry w) = msg_sender env → User.isActive u = true →
   _role = NONE → assignRole env _user _role w = Revert InvalidRole) ∧
  (owner (registry w) = msg_sender env → User.isActive u = true →
   _role ≠ NONE → ∃ w', assignRole env _user _role w = Ok (tt, w')) ∧
  (∀ w',
     assignRole env _user _role w = Ok (tt, w') →
     user_at (users (registry w')) _user =
       User.mk (User.userAddress u) _role (User.totalRewardsEarned u)
               (User.successfulMatches u) true ∧
     (∀ b, b ≠ _user →
        user_at (users (registry w')) b = user_at (users (registry w)) b) ∧
     matches (registry w') = matches (registry w) ∧
     matchCounter (registry w') = matchCounter (registry w) ∧
     totalMatches (registry w') = totalMatches (registry w) ∧
     successfulMatches (registry w') = successfulMatches (registry w) ∧
     owner (registry w') = owner (registry w) ∧
     token w' = token w ∧
     verifiers (registry w') =
       (if bool_decide (_role = VERIFIER)
        then {[_user]} ∪ verifiers (registry w) else verifiers (registry w))).
Proof.
  cbv zeta. split_and!.
  - intros Ho. unfold assignRole, onlyOwner. run_rewrite.
    by apply N.eqb_neq in Ho as ->.
  - intros Ho Ha. unfold assignRole, onlyOwner. run_rewrite.
    apply N.eqb_eq in Ho as ->. by rewrite Ha.
  - intros Ho Ha ->. unfold assignRole, onlyOwner. run_rewrite.
    apply N.eqb_eq in Ho as ->. by rewrite Ha.
  - intros Ho Ha Hr. eexists. by apply assignRole_Ok.
  - intros w' [(Ho & Ha & Hr) ->]%assignRole_Ok.
    unfold assignRole_post; fields. rewrite user_at_insert_eq.
    unfold User.set_role. rewrite Ha.
    split_and!; try done.
    intros b Hb. by rewrite user_at_insert_ne.
Qed.

(** X10. In every reachable state, [getMatchInfo] of an id below the match
    counter returns, without changing the state, a record that carries this
    id, the fixed reward, a creation time, two different non-zero peers and
    a matchmaker with an active user record. Whatever transactions follow,
    the id stays readable and the id, matchmaker, peers, reward and
    creation time of its record never change. *)
Theorem getMatchInfo_allocated w _matchId :
  reachable w →
  _matchId < matchCounter (registry w) →
  ∃ m,
    getMatchInfo _matchId w = Ok (m, w) ∧
    Match.matchId m = _matchId ∧
    Match.rewardAmount m = REWARD_AMOUNT ∧
    Match.createdAt m ≠ 0 ∧
    Match.peer1 m ≠ address0 ∧ Match.peer2 m ≠ address0 ∧
    Match.peer1 m ≠ Match.peer2 m ∧
    User.isActive (user_at (users (registry w)) (Match.matchmaker m)) = true ∧
    ∀ tr w',
      steps w tr w' →
      ∃ m',
        getMatchInfo _matchId w' = Ok (m', w') ∧
        Match.matchId m' = Match.matchId m ∧
        Match.matchmaker m' = Match.matchmaker m ∧
        Match.peer1 m' = Match.peer1 m ∧ Match.peer2 m' = Match.peer2 m ∧
        Match.rewardAmount m' = Match.rewardAmount m ∧
        Match.createdAt m' = Match.createdAt m.
Proof.
  intros Hr Hi. pose proof (reachable_Inv _ Hr) as HI.
  destruct HI as [He Hc Hd Hs HM HU] eqn:E. clear E.
  destruct (proj2 (Hd _matchId) Hi) as [m Hm].
  destruct (HM _ _ Hm) as (?&?&?&?&[u Hu]&?&?&?&?&?).
  exists m. split_and!; try done.
  - unfold getMatchInfo. run_rewrite.
    apply N.ltb_lt in Hi as ->. unfold read, gets.
    by rewrite (match_at_Some _ _ _ Hm).
  - rewrite (user_at_Some _ _ _ Hu). by apply HU in Hu as (? & _).
  - intros tr w' Hst.
    pose proof (steps_match_identity w tr w' _matchId (reachable_Inv _ Hr) Hi Hst)
      as (Hi' & Hid).
    cbv zeta in Hid. rewrite (match_at_Some _ _ _ Hm) in Hid.
    eexists. split; [|exact Hid].
    unfold getMatchInfo. run_rewrite. by apply N.ltb_lt in Hi' as ->.
Qed.

(** In the scenario: match 0 as created, read again after its
    verification. *)
Lemma getMatchInfo_allocated_witness :
  ∃ m m',
    getMatchInfo 0 w_created = Ok (m, w_created) ∧
    Match.matchId m = 0 ∧
    getMatchInfo 0 w_verified = Ok (m', w_verified) ∧
    Match.matchmaker m' = Match.matchmaker m ∧
    Match.createdAt m' = Match.createdAt m.
Proof.
  assert (0 < matchCounter (registry w_created)) as Hi by (by vm_compute).
  destruct (getMatchInfo_allocated w_created 0 w_created_reachable Hi)
    as (m & Hg & Hid & _ & _ & _ & _ & _ & _ & Hlater).
  assert (steps w_created
            (rev [(deployer, TokenTransfer REGISTRY REWARD_AMOUNT);
                  (bob, VerifyMatch 0)] ++ []) w_verified) as Hs.
  { apply (run_steps w_created [] _ w_created); [constructor|by vm_compute]. }
  destruct (Hlater _ _ Hs) as (m' & Hg' & _ & Hmm & _ & _ & _ & Hcr).
  exists m, m'. 
  split; [exact Hg|]. split; [exact Hid|]. split; [exact Hg'|].
  split; [exact Hmm|exact Hcr].
Defined.

(** X11. In every reachable state, [getUserInfo] returns, without changing
    the state, either the zero record or an active record that carries the
    address asked for and a role other than NONE. Registration is
    permanent: whatever transactions follow, an active record stays
    active, keeps its address, and its successful matches and rewards
    earned never decrease. *)
Theorem getUserInfo_registered w _user :
  reachable w →
  ∃ u,
    getUserInfo _user w = Ok (u, w) ∧
    (u = User.zero ∨
     (User.isActive u = true ∧ User.userAddress u = _user ∧
      User.role u ≠ NONE)) ∧
    ∀ tr w',
      steps w tr w' → User.isActive u = true →
      ∃ u',
        getUserInfo _user w' = Ok (u', w') ∧
        User.isActive u' = true ∧ User.userAddress u' = _user ∧
        User.role u' ≠ NONE ∧
        User.successfulMatches u <= User.successfulMatches u' ∧
        User.totalRewardsEarned u <= User.totalRewardsEarned u'.
Proof.
  intros Hr. pose proof (reachable_Inv _ Hr) as HI.
  exists (user_at (users (registry w)) _user). split_and!; [done| |].
  - unfold user_at.
    destruct (users (registry w) !! _user) as [u|] eqn:Hu; [|by left].
    right. by apply (inv_users _ HI) in Hu.
  - intros tr w' Hs Ha.
    exists (user_at (users (registry w')) _user).
    pose proof (steps_Inv _ _ _ HI Hs) as HI'.
    assert (User.isActive (user_at (users (registry w')) _user) = true ∧
            User.userAddress (user_at (users (registry w')) _user) =
              User.userAddress (user_at (users (registry w)) _user) ∧
            User.successfulMatches (user_at (users (registry w)) _user) <=
              User.successfulMatches (user_at (users (registry w')) _user) ∧
            User.totalRewardsEarned (user_at (users (registry w)) _user) <=
              User.totalRewardsEarned (user_at (users (registry w')) _user))
      as (Ha' & Haddr & Hsucc & Hrew).
    { clear HI'. induction Hs as [|tr w1 env c w2 Hs IH Hv _ Hx];
        [split_and!; [done|done|lia|lia]|].
      destruct IH as (IH1 & IH2 & IH3 & IH4).
      pose proof (exec_user_mono _ _ _ _ _user Hx) as Hm. cbv zeta in Hm.
      destruct (Hm IH1) as (? & ? & ? & ?).
      split_and!; [done|congruence|lia|lia]. }
    apply user_at_active in Ha'.
    apply (inv_users _ HI') in Ha' as (? & ? & ?).
    split_and!; done.
Qed.

(** In the scenario: the record of Alice, active once she registered,
    before and after her match is verified. *)
Lemma getUserInfo_registered_witness :
  ∃ u u',
    getUserInfo ALICE w_created = Ok (u, w_created) ∧
    User.isActive u = true ∧
    getUserInfo ALICE w_verified = Ok (u', w_verified) ∧
    User.role u' ≠ NONE ∧
    User.successfulMatches u <= User.successfulMatches u'.
Proof.
  destruct (getUserInfo_registered w_created ALICE w_created_reachable)
    as (u & Hg & _ & Hlater).
  assert (steps w_created
            (rev [(deployer, TokenTransfer REGISTRY REWARD_AMOUNT);
                  (bob, VerifyMatch 0)] ++ []) w_verified) as Hs.
  { apply (run_steps w_created [] _ w_created); [constructor|by vm_compute]. }
  assert (User.isActive u = true) as Ha.
  { assert (match getUserInfo ALICE w_created with
            | Ok (u, _) => User.isActive u
            | _ => false
            end = true) as Hc by (vm_compute; reflexivity).
    rewrite Hg in Hc. exact Hc. }
  destruct (Hlater _ _ Hs Ha) as (u' & Hg' & _ & _ & Hrole & Hsucc & _).
  exists u, u'. split; [exact Hg|]. split; [exact Ha|]. split; [exact Hg'|].
  split; [exact Hrole|exact Hsucc].
Defined.

(** * Funding and withdrawing *)

(** X12. [withdrawTokens] checks the caller (the owner), then the amount
    (positive), then the registry's ledger balance ("Insufficient
    balance"). It succeeds exactly when these hold and the ledger's transfer
    to the owner goes through; it then moves the amount from the registry
    to the owner and leaves the whole storage of the registry, its event
    log included, as it was. *)
Theorem withdrawTokens_correct env _amount w :
  (owner (registry w) ≠ msg_sender env →
   withdrawTokens env _amount w = Revert "Ownable: caller is not the owner") ∧
  (owner (registry w) = msg_sender env → _amount = 0 →
   withdrawTokens env _amount w = Revert "Invalid amount") ∧
  (owner (registry w) = msg_sender env → 0 < _amount →
   Token.balance (token w) (this w) < _amount →
   withdrawTokens env _amount w = Revert "Insufficient balance") ∧
  (∀ w',
     withdrawTokens env _amount w = Ok (tt, w') ↔
     withdrawTokens_pre env _amount w ∧ w' = withdrawTokens_post env _amount w) ∧
  (∀ w',
     withdrawTokens env _amount w = Ok (tt, w') →
     this w' = this w ∧ registry w' = registry w ∧
     Token.totalSupply (token w') = Token.totalSupply (token w) ∧
     (msg_sender env ≠ this w →
      Token.balance (token w') (this w) =
        Token.balance (token w) (this w) - _amount ∧
      Token.balance (token w') (msg_sender env) =
        Token.balance (token w) (msg_sender env) + _amount ∧
      ∀ b, b ≠ this w → b ≠ msg_sender env →
           Token.balance (token w') b = Token.balance (token w) b)).
Proof.
  split_and!.
  - intros Ho. unfold withdrawTokens, onlyOwner. run_rewrite.
    by apply N.eqb_neq in Ho as ->.
  - intros Ho ->. unfold withdrawTokens, onlyOwner. run_rewrite.
    by apply N.eqb_eq in Ho as ->.
  - intros Ho Ha Hb. unfold withdrawTokens, onlyOwner. run_rewrite.
    apply N.eqb_eq in Ho as ->. apply N.ltb_lt in Ha as ->.
    rewrite run_call_token. unfold Token.balanceOf, gets. run_rewrite.
    by apply N.leb_gt in Hb as ->.
  - intros w'. apply withdrawTokens_Ok.
  - intros w' [(Ho & Ha & Hb & Hpre) ->]%withdrawTokens_Ok.
    unfold withdrawTokens_post. cbn [this registry token].
    split_and!; [done..|]. intros Hne.
    destruct (transfer_post_balances (this w) (msg_sender env) _amount (token w))
      as (H1 & H2 & H3 & _); [done|done|].
    split_and!; [done|done|]. intros b ? ?. by apply H3.
Qed.

(** X13. [fundRewards] checks the caller (the owner), then the amount
    (positive), then asks the ledger for a [transferFrom] of the owner's
    tokens to the registry, which fails for a missing allowance. On success
    it moves the amount from the owner to the registry, lowers the
    allowance by the amount (an unlimited allowance is left as it is), and
    leaves the storage of the registry as it was. *)
Theorem fundRewards_correct env _amount w :
  (owner (registry w) ≠ msg_sender env →
   fundRewards env _amount w = Revert "Ownable: caller is not the owner") ∧
  (owner (registry w) = msg_sender env → _amount = 0 →
   fundRewards env _amount w = Revert "Invalid amount") ∧
  (owner (registry w) = msg_sender env → 0 < _amount →
   _amount <= MAX_UINT256 →
   Token.allowance (token w) (msg_sender env) (this w) < _amount →
   fundRewards env _amount w = Revert "ERC20: insufficient allowance") ∧
  (∀ w',
     fundRewards env _amount w = Ok (tt, w') ↔
     fundRewards_pre env _amount w ∧ w' = fundRewards_post env _amount w) ∧
  (∀ w',
     fundRewards env _amount w = Ok (tt, w') →
     this w' = this w ∧ registry w' = registry w ∧
     Token.totalSupply (token w') = Token.totalSupply (token w) ∧
     Token.allowance (token w') (msg_sender env) (this w) =
       (if Token.allowance (token w) (msg_sender env) (this w) =? MAX_UINT256
        then MAX_UINT256
        else Token.allowance (token w) (msg_sender env) (this w) - _amount) ∧
     (msg_sender env ≠ this w →
      Token.balance (token w') (this w) =
        Token.balance (token w) (this w) + _amount ∧
      Token.balance (token w') (msg_sender env) =
        Token.balance (token w) (msg_sender env) - _amount ∧
      ∀ b, b ≠ this w → b ≠ msg_sender env →
           Token.balance (token w') b = Token.balance (token w) b)).
Proof.
  split_and!.
  - intros Ho. unfold fundRewards, onlyOwner. run_rewrite.
    by apply N.eqb_neq in Ho as ->.
  - intros Ho ->. unfold fundRewards, onlyOwner. run_rewrite.
    by apply N.eqb_eq in Ho as ->.
  - intros Ho Ha Hmax Hal. unfold fundRewards, onlyOwner. run_rewrite.
    apply N.eqb_eq in Ho as ->. apply N.ltb_lt in Ha as ->.
    rewrite run_call_token.
    unfold Token.transferFrom, Token._spendAllowance. run_rewrite. fields.
    destruct (N.eqb_spec
                (default 0 (Token.allowances (token w) !! (msg_sender env, this w)))
                MAX_UINT256) as [Hm|Hm]; [lia|].
    run_rewrite. by apply N.leb_gt in Hal as ->.
  - intros w'. apply fundRewards_Ok.
  - intros w' [(Ho & Ha & Hal & Hpre) ->]%fundRewards_Ok.
    unfold fundRewards_post. cbn [this registry token].
    assert (∀ b, Token.balance
                   (spendAllowance_post (msg_sender env) (this w) _amount (token w)) b =
                 Token.balance (token w) b) as Hsame.
    { intros b. unfold spendAllowance_post. by case_match. }
    split_and!; [done|done| | |].
    + unfold spendAllowance_post. by case_match.
    + unfold spendAllowance_post, transfer_post, Token.allowance.
      case_match; cbn [Token.allowances]; [by apply N.eqb_eq|].
      by rewrite lookup_insert_eq.
    + intros Hne.
      destruct (transfer_post_balances (msg_sender env) (this w) _amount
                  (spendAllowance_post (msg_sender env) (this w) _amount (token w)))
        as (H1 & H2 & H3 & _); [done| |].
      { rewrite Hsame. by destruct Hpre as (_ & _ & ? & _). }
      rewrite !Hsame in *. split_and!; [done|done|].
      intros b ? ?. rewrite <- Hsame. by apply H3.
Qed.

(** X14. Nothing is set aside for matches that wait for their
    verification: when the owner withdraws the registry's whole balance
    (which succeeds by [withdrawTokens] alone, whatever matches are
    pending), [getContractBalance] returns 0, no [verifyMatch] can succeed
    in the state reached, and the verification of a pending match by a
    verifier is refused with InsufficientBalance. *)
Theorem withdrawal_ignores_pending_matches env w w' :
  reachable w →
  msg_sender env ≠ this w →
  withdrawTokens env (Token.balance (token w) (this w)) w = Ok (tt, w') →
  registry w' = registry w ∧
  (∀ env', getContractBalance env' w' = Ok (0, w')) ∧
  (∀ env' _matchId w'', verifyMatch env' _matchId w' ≠ Ok (tt, w'')) ∧
  (∀ env' _matchId,
     msg_sender env' ∈ verifiers (registry w) →
     _matchId < matchCounter (registry w) →
     Match.isVerified (match_at (matches (registry w)) _matchId) = false →
     successfulMatches (registry w) < MAX_UINT256 →
     verifyMatch env' _matchId w' = Revert InsufficientBalance).
Proof.
  intros Hr Hne [(Ho & Ha & Hb & Hpre) ->]%withdrawTokens_Ok.
  pose proof (reachable_Inv _ Hr) as HI.
  pose proof (reachable_Stats _ Hr) as HS.
  set (w' := withdrawTokens_post _ _ _).
  assert (Token.balance (token w') (this w') = 0) as Hzero.
  { destruct (transfer_post_balances (this w) (msg_sender env)
                (Token.balance (token w) (this w)) (token w))
      as (_ & H2 & _); [done|done|].
    unfold w', withdrawTokens_post. cbn [this token]. rewrite H2. lia. }
  assert (Inv w') as HI' by (apply (Inv_registry w); [reflexivity..|exact HI]).
  assert (Stats w') as HS' by (apply (Stats_registry w); [reflexivity|exact HS]).
  assert (this w' ≠ address0) as H0 by (destruct Hpre as (Hf & _); exact Hf).
  pose proof REWARD_pos as [Hpos _].
  split_and!.
  - done.
  - intros env'. unfold getContractBalance. run_rewrite.
    unfold call_token, Token.balanceOf, gets.
    rewrite Hzero. done.
  - intros env' i w''. rewrite verifyMatch_run by done.
    unfold verifyMatch_outcome. rewrite Hzero.
    apply N.ltb_lt in Hpos as ->. repeat case_match; done.
  - intros env' i Hv Hi Hnv Hsucc. rewrite verifyMatch_run by done.
    unfold verifyMatch_outcome. rewrite Hzero.
    apply N.ltb_lt in Hpos as ->.
    change (registry w') with (registry w).
    rewrite bool_decide_eq_true_2 by done.
    apply N.ltb_lt in Hi as ->. rewrite Hnv. cbn [negb].
    assert ((MAX_UINT256 <? successfulMatches (registry w) + 1) = false) as ->
      by (apply N.ltb_ge; lia).
    done.
Qed.

(** In the scenario, funded with one reward and match 0 pending: the
    deployer withdraws the reward, and Bob's verification is refused. *)
Lemma withdrawal_ignores_pending_matches_witness :
  let w' := withdrawTokens_post deployer REWARD_AMOUNT w_funded in
  withdrawTokens deployer (Token.balance (token w_funded) (this w_funded))
    w_funded = Ok (tt, w') ∧
  getContractBalance bob w' = Ok (0, w') ∧
  verifyMatch bob 0 w' = Revert InsufficientBalance.
Proof.
  intros w'.
  assert (msg_sender deployer ≠ this w_funded) as Hne by (by vm_compute).
  assert (withdrawTokens deployer (Token.balance (token w_funded) (this w_funded))
            w_funded = Ok (tt, w')) as Hw by (by vm_compute).
  destruct (withdrawal_ignores_pending_matches deployer w_funded w'
              w_funded_reachable Hne Hw) as (_ & Hb & _ & Hv).
  split; [exact Hw|]. split; [exact (Hb bob)|].
  apply Hv; by vm_compute.
Defined.

(** X15. Funding and withdrawing undo each other: after a successful
    [fundRewards] of an amount, a [withdrawTokens] of the same amount by
    the owner succeeds, and it leaves every ledger balance and the storage
    of the registry as they were before the funding. *)
Theorem fund_then_withdraw env _amount w w1 :
  msg_sender env ≠ this w →
  Token.balance (token w) (msg_sender env) <= MAX_UINT256 →
  fundRewards env _amount w = Ok (tt, w1) →
  ∃ w2,
    withdrawTokens env _amount w1 = Ok (tt, w2) ∧
    registry w2 = registry w ∧
    Token.totalSupply (token w2) = Token.totalSupply (token w) ∧
    ∀ b, Token.balance (token w2) b = Token.balance (token w) b.
Proof.
  intros Hne Hmax [(Ho & Ha & Hal & Hpre) ->]%fundRewards_Ok.
  destruct Hpre as (Hs & Ht & Hb & Hov).
  set (t1 := spendAllowance_post (msg_sender env) (this w) _amount (token w)).
  assert (∀ b, Token.balance t1 b = Token.balance (token w) b) as Hsame.
  { intros b. unfold t1, spendAllowance_post. by case_match. }
  assert (Token.totalSupply t1 = Token.totalSupply (token w)) as Hsupply.
  { unfold t1, spendAllowance_post. by case_match. }
  destruct (transfer_post_balances (msg_sender env) (this w) _amount t1)
    as (H1 & H2 & H3 & H4 & _); [done|by rewrite Hsame|].
  rewrite !Hsame in H1, H2.
  set (t2 := transfer_post (msg_sender env) (this w) _amount t1) in *.
  destruct (transfer_post_balances (this w) (msg_sender env) _amount t2)
    as (G1 & G2 & G3 & G4 & _); [done|rewrite H1; lia|].
  eexists. split; [|split_and!].
  - apply withdrawTokens_Ok. split; [|reflexivity].
    unfold withdrawTokens_pre, fundRewards_post, transfer_pre.
    cbn [this registry token]. fold t1 t2.
    split_and!; try done.
    + rewrite H1. lia.
    + rewrite H1. lia.
    + unfold debit. rewrite lookup_insert_ne by done.
      change (default 0 (Token.balances t2 !! msg_sender env))
        with (Token.balance t2 (msg_sender env)).
      rewrite H2. lia.
  - done.
  - unfold withdrawTokens_post, fundRewards_post. cbn [this registry token].
    fold t1 t2. by rewrite G4, H4.
  - intros b. unfold withdrawTokens_post, fundRewards_post.
    cbn [this registry token]. fold t1 t2.
    destruct (decide (b = this w)) as [->|Hb1]; [rewrite G2, H1; lia|].
    destruct (decide (b = msg_sender env)) as [->|Hb2]; [rewrite G1, H2; lia|].
    rewrite G3, H3, Hsame by done. done.
Qed.

(** In the scenario with an allowance: the deployer funds the registry with
    one reward and withdraws it again. *)
Lemma fund_then_withdraw_witness :
  ∃ w2,
    withdrawTokens deployer REWARD_AMOUNT
      (fundRewards_post deployer REWARD_AMOUNT w_approved) = Ok (tt, w2) ∧
    registry w2 = registry w_approved ∧
    Token.totalSupply (token w2) = Token.totalSupply (token w_approved) ∧
    ∀ b, Token.balance (token w2) b = Token.balance (token w_approved) b.
Proof.
  apply (fund_then_withdraw deployer REWARD_AMOUNT w_approved); by vm_compute.
Defined.

(** * The ledger *)

(** X16. When the ledger was created by its constructor, then after the
    deployment of the registry and any history of successful transactions
    of the two contracts (transfers, approvals, mints, burns, fundings,
    withdrawals and rewards), the balances of the ledger add up to its
    total supply, which fits in a [uint256]; so no balance exceeds the
    supply, and two different balances never add up to more than a
    [uint256] holds. *)
Theorem ledger_supply_invariant env0 initialSupply t0 self env _tokenAddress tr w :
  Token.constructor env0 initialSupply Token.empty = Ok (tt, t0) →
  steps (deployed self env _tokenAddress t0) tr w →
  sum_balances (Token.balances (token w)) = Token.totalSupply (token w) ∧
  Token.totalSupply (token w) <= MAX_UINT256 ∧
  (∀ a, Token.balance (token w) a <= Token.totalSupply (token w)) ∧
  (∀ a b, a ≠ b →
     Token.balance (token w) a + Token.balance (token w) b <= MAX_UINT256).
Proof.
  intros Hc Hs.
  assert (supply_ok (token w)) as [Hsum Hmax].
  { eapply supply_ok_steps; [apply Inv_deployed| |done].
    by eapply supply_ok_constructor. }
  split_and!; [done|done| |].
  - intros a. rewrite <- Hsum. apply sum_balances_lookup_le.
  - intros a b Hne.
    pose proof (sum_balances_lookup_le2 (Token.balances (token w)) a b Hne).
    unfold Token.balance. lia.
Qed.

(** In the scenario: the ledger was created with 1000 tokens, and it holds
    as many after the reward was paid. *)
Lemma ledger_supply_invariant_witness :
  sum_balances (Token.balances (token w_verified)) =
    Token.totalSupply (token w_verified) ∧
  Token.totalSupply (token w_verified) <= MAX_UINT256.
Proof.
  assert (Token.constructor deployer 1000 Token.empty = Ok (tt, token_deployed))
    as Hc by (by vm_compute).
  assert (steps (deployed REGISTRY deployer TOKEN token_deployed)
            (rev scenario ++ []) w_verified) as Hs.
  { apply (run_steps w_deployed [] _ w_deployed); [constructor|by vm_compute]. }
  destruct (ledger_supply_invariant _ _ _ _ _ _ _ _ Hc Hs) as (H1 & H2 & _).
  split; [exact H1|exact H2].
Defined.

(** X17. The constructor of the ledger makes the deployer the owner and
    mints the initial supply, scaled by 10^18, to the deployer; it is
    aborted by the checked multiplication when the scaled supply does not
    fit in a [uint256]. *)
Theorem token_constructor_correct env initialSupply :
  msg_sender env ≠ address0 →
  (initialSupply * 10 ^ 18 <= MAX_UINT256 →
   ∃ t, Token.constructor env initialSupply Token.empty = Ok (tt, t) ∧
        Token.owner t = msg_sender env ∧
        Token.totalSupply t = initialSupply * 10 ^ 18 ∧
        Token.balance t (msg_sender env) = initialSupply * 10 ^ 18 ∧
        ∀ b, b ≠ msg_sender env → Token.balance t b = 0) ∧
  (MAX_UINT256 < initialSupply * 10 ^ 18 →
   Token.constructor env initialSupply Token.empty = Panic ARITHMETIC_PANIC).
Proof.
  intros H0. apply N.eqb_neq in H0.
  unfold Token.constructor, Token._mint, Token.emit, Token.decimals,
    Token.empty. split.
  - intros Hle. eexists. split.
    + run_rewrite. unfold checked_mul. apply N.leb_le in Hle as Hle'.
      rewrite Hle'. run_rewrite. fields. rewrite H0. cbn [negb].
      rewrite lookup_empty. cbn [default]. rewrite !N.add_0_l, Hle'.
      reflexivity.
    + fields. split_and!; [done|done|by rewrite lookup_insert_eq|].
      intros b Hb. by rewrite lookup_insert_ne, lookup_empty.
  - intros Hgt. run_rewrite. unfold checked_mul.
    apply N.leb_gt in Hgt as ->. done.
Qed.

(** The deployment of the scenario: 1000 tokens. *)
Lemma token_constructor_correct_witness :
  ∃ t, Token.constructor deployer 1000 Token.empty = Ok (tt, t) ∧
       Token.owner t = DEPLOYER ∧
       Token.balance t DEPLOYER = 1000 * 10 ^ 18.
Proof.
  assert (msg_sender deployer ≠ address0) as H0 by (by vm_compute).
  destruct (token_constructor_correct deployer 1000 H0) as [Hok _].
  destruct Hok as (t & Hc & Ho & _ & Hb & _); [by vm_compute|].
  exists t. split; [exact Hc|]. split; [exact Ho|exact Hb].
Defined.


(** X19. Minting and burning undo each other: when the owner of the ledger
    mints an amount to itself and then burns the same amount, the total
    supply and every balance are as before. *)
Theorem mint_then_burn env amount t t1 :
  Token.mint env (msg_sender env) amount t = Ok (tt, t1) →
  ∃ t2,
    Token.burn env amount t1 = Ok (tt, t2) ∧
    Token.totalSupply t2 = Token.totalSupply t ∧
    Token.owner t2 = Token.owner t ∧
    ∀ b, Token.balance t2 b = Token.balance t b.
Proof.
  intros H.
  unfold Token.mint, Token.onlyOwner, Token._mint, Token.emit in H.
  minv. bprop.
  match goal with H : msg_sender env ≠ address0 |- _ =>
    apply N.eqb_neq in H as H0 end.
  eexists. split.
  - unfold Token.burn, Token._burn, Token.emit. run_rewrite. fields.
    rewrite H0. cbn [negb]. rewrite lookup_insert_eq. cbn [default]. unfold id.
    match goal with |- context [?a <=? ?b] =>
      assert ((a <=? b) = true) as -> by (apply N.leb_le; unfold id; lia) end.
    reflexivity.
  - fields. split_and!; [lia|done|].
    intros b. destruct (decide (b = msg_sender env)) as [->|Hb].
    + rewrite lookup_insert_eq. cbn [default]. unfold id. lia.
    + by rewrite !lookup_insert_ne.
Qed.

(** In the scenario: the deployer, who owns the ledger, mints one reward to
    itself and burns it. *)
Lemma mint_then_burn_witness :
  ∃ t1 t2,
    Token.mint deployer DEPLOYER REWARD_AMOUNT token_deployed = Ok (tt, t1) ∧
    Token.burn deployer REWARD_AMOUNT t1 = Ok (tt, t2) ∧
    Token.totalSupply t2 = Token.totalSupply token_deployed.
Proof.
  assert (∃ t1, Token.mint deployer (msg_sender deployer) REWARD_AMOUNT
                  token_deployed = Ok (tt, t1)) as [t1 Hm].
  { eexists. by vm_compute. }
  destruct (mint_then_burn deployer REWARD_AMOUNT token_deployed t1 Hm)
    as (t2 & Hb & Hs & _).
  exists t1, t2. split; [exact Hm|]. split; [exact Hb|exact Hs].
Defined.

(** * Ownership, and the two contracts *)

(** X20. Giving up the ownership of the registry is final: once the owner
    is the zero address (as [renounceOwnership] leaves it), it stays the
    zero address whatever transactions follow, and [assignRole],
    [fundRewards] and [withdrawTokens] are refused for every caller. *)
Theorem renounced_ownership_is_final w tr w' :
  owner (registry w) = address0 →
  steps w tr w' →
  owner (registry w') = address0 ∧
  ∀ env,
    valid_env (this w') env →
    (∀ _user _role,
       assignRole env _user _role w' = Revert "Ownable: caller is not the owner") ∧
    (∀ _amount,
       fundRewards env _amount w' = Revert "Ownable: caller is not the owner") ∧
    (∀ _amount,
       withdrawTokens env _amount w' = Revert "Ownable: caller is not the owner").
Proof.
  intros H0 Hs.
  assert (owner (registry w') = address0) as H0'.
  { induction Hs as [|tr w1 env c w2 Hs IH (Hs0 & _) _ Hx]; [done|].
    destruct c; cbn [exec] in Hx.
    - by apply registerUser_Ok in Hx as [_ ->].
    - by apply assignRole_Ok in Hx as [_ ->].
    - minv. match goal with H : createMatch _ _ _ _ = _ |- _ =>
        apply createMatch_Ok in H as (_ & _ & ->) end. done.
    - by apply verifyMatch_Ok in Hx as [_ ->].
    - by apply fundRewards_Ok in Hx as [_ ->].
    - by apply withdrawTokens_Ok in Hx as [_ ->].
    - unfold transferOwnership, onlyOwner in Hx. minv. bprop. congruence.
    - unfold renounceOwnership, onlyOwner in Hx. minv. done.
    - minv. done.
    - minv. done.
    - minv. done.
    - minv. done.
    - minv. done.
    - minv. done.
    - minv. done. }
  split; [done|]. intros env (Hs0 & _).
  assert ((owner (registry w') =? msg_sender env) = false) as Hne.
  { apply N.eqb_neq. congruence. }
  split_and!; intros;
    unfold assignRole, fundRewards, withdrawTokens, onlyOwner;
    run_rewrite; by rewrite Hne.
Qed.

(** In the scenario: the deployer gives up the ownership of the funded
    registry; after a further match created by Alice the owner is still
    the zero address and the deployer cannot withdraw. *)
Lemma renounced_ownership_is_final_witness :
  let w' := createMatch_post alice PEER2 PEER1 w_renounced in
  renounceOwnership deployer w_funded = Ok (tt, w_renounced) ∧
  exec alice (CreateMatch PEER2 PEER1) w_renounced = Ok (tt, w') ∧
  owner (registry w') = address0 ∧
  withdrawTokens deployer REWARD_AMOUNT w' =
    Revert "Ownable: caller is not the owner".
Proof.
  intros w'.
  assert (owner (registry w_renounced) = address0) as H0 by (by vm_compute).
  assert (steps w_renounced (rev [(alice, CreateMatch PEER2 PEER1)] ++ []) w')
    as Hs.
  { apply (run_steps w_renounced [] _ w_renounced); [constructor|by vm_compute]. }
  destruct (renounced_ownership_is_final w_renounced _ w' H0 Hs) as [Ho Hall].
  destruct (Hall deployer) as (_ & _ & Hw); [by apply valid_envb_spec|].
  split; [by vm_compute|]. split; [by vm_compute|].
  split; [exact Ho|exact (Hw REWARD_AMOUNT)].
Defined.

(** X21. The two contracts are written separately: a successful
    registration, role assignment, match creation or change of owner of the
    registry leaves the ledger as it was; a successful funding, withdrawal
    or direct call of the ledger leaves the storage of the registry as it
    was. [verifyMatch] is the only entry point that writes both. *)
Theorem registry_and_ledger_writes env c w w' :
  exec env c w = Ok (tt, w') →
  this w' = this w ∧
  (writes_registry_only c = true → token w' = token w) ∧
  (writes_ledger_only c = true → registry w' = registry w) ∧
  (writes_registry_only c = false → writes_ledger_only c = false →
   ∃ _matchId, c = VerifyMatch _matchId ∧
               registry w' ≠ registry w ∧ token w' ≠ token w).
Proof.
  intros Hx. split; [by eapply exec_this|].
  destruct c; cbn [exec writes_registry_only writes_ledger_only] in *;
    (split; [|split]); try done; intros _.
  - by apply registerUser_Ok in Hx as [_ ->].
  - by apply assignRole_Ok in Hx as [_ ->].
  - minv. match goal with H : createMatch _ _ _ _ = _ |- _ =>
      apply createMatch_Ok in H as (_ & _ & ->) end. done.
  - intros _. eexists. split; [done|].
    apply verifyMatch_Ok in Hx as [_ ->]. unfold verifyMatch_post.
    cbn [registry token]. split.
    + intros Heq. apply (f_equal events) in Heq. cbn [events] in Heq.
      apply (f_equal length) in Heq. rewrite length_app in Heq.
      cbn [length] in Heq. lia.
    + intros Heq. apply (f_equal Token.events) in Heq.
      unfold transfer_post in Heq. cbn [Token.events] in Heq.
      apply (f_equal length) in Heq. rewrite length_app in Heq.
      cbn [length] in Heq. lia.
  - by apply fundRewards_Ok in Hx as [_ ->].
  - by apply withdrawTokens_Ok in Hx as [_ ->].
  - unfold transferOwnership, onlyOwner in Hx. minv. done.
  - unfold renounceOwnership, onlyOwner in Hx. minv. done.
  - minv. done.
  - minv. done.
  - minv. done.
  - minv. done.
  - minv. done.
  - minv. done.
  - minv. done.
Qed.

(** In the scenario: Alice's [createMatch] leaves the ledger alone, and
    the deployer's transfer to the registry leaves the registry alone. *)
Lemma registry_and_ledger_writes_witness :
  token w_created = token w_registered ∧
  registry w_funded = registry w_created.
Proof.
  assert (exec alice (CreateMatch PEER1 PEER2) w_registered = Ok (tt, w_created))
    as H1 by (by vm_compute).
  assert (exec deployer (TokenTransfer REGISTRY REWARD_AMOUNT) w_created =
          Ok (tt, w_funded)) as H2 by (by vm_compute).
  destruct (registry_and_ledger_writes _ _ _ _ H1) as (_ & Ht & _).
  destruct (registry_and_ledger_writes _ _ _ _ H2) as (_ & _ & Hr & _).
  split; [exact (Ht eq_refl)|exact (Hr eq_refl)].
Defined.

(** * The frontend *)

(** X22. [getRoleName] of the frontend names the roles as the contract
    does: for each role, the number it is returned as (its position in the
    [enum]) is shown under the role's identifier; every other number (a
    negative one, one above 3, or no integer) is shown as UNKNOWN. In a
    reachable state, the role stored for an address is shown as NONE
    exactly when the address has no active record. *)
Theorem getRoleName_correct :
  (∀ r, getRoleName (JsInt (Z.of_N (Role_to_uint r))) = Role_name r) ∧
  (∀ n, getRoleName n = "UNKNOWN" ↔
        ∀ r, n ≠ JsInt (Z.of_N (Role_to_uint r))) ∧
  (∀ w _user,
     reachable w →
     let u := user_at (users (registry w)) _user in
     getRoleName (JsInt (Z.of_N (Role_to_uint (User.role u)))) = "NONE" ↔
     User.isActive u = false).
Proof.
  split_and!.
  - by intros [].
  - intros n. split.
    + intros H r ->. by destruct r.
    + intros H. destruct n as [z|]; [|done].
      unfold getRoleName, js_index.
      destruct (Z.leb_spec 0 z) as [Hz|Hz]; [|done].
      destruct (Z.to_nat z) as [|[|[|[|k]]]] eqn:Hk; [..|done].
      * destruct (H NONE). f_equal. cbn. lia.
      * destruct (H MATCHMAKER). f_equal. cbn. lia.
      * destruct (H VERIFIER). f_equal. cbn. lia.
      * destruct (H ADMIN). f_equal. cbn. lia.
  - intros w a Hr. cbv zeta.
    pose proof (reachable_Inv _ Hr) as HI. unfold user_at.
    destruct (users (registry w) !! a) as [u|] eqn:Hu; cbn [default]; [|done].
    apply (inv_users _ HI) in Hu as (Ha & _ & Hrole). unfold id.
    rewrite Ha. split; [|done]. by destruct (User.role u).
Qed.
